(** * motor_sim: the integrator step, the host loop and the GUI observers

    A shallow embedding of [simulator/simulator.cpp] (module [Simulator]) and
    of the observer code of [simulator/gui.cpp] (module [Gui]), with the
    properties the specification states about them ([SimulatorFacts],
    [GuiFacts]).

    Numbers.  [Scalar] is the program's floating type.  It is embedded as the
    real numbers [R]: every operation is the exact one; rounding, infinities
    and NaN are not represented.  A division by a parameter of the motor
    (inductance, inertia) is written with [Rdiv] and is the program's for a
    nonzero divisor; the one division whose divisor is computed from data, in
    the rescaling of the cogging map, is guarded in place.  [int] values are
    embedded as [Z]; no computation below can overflow. *)

From stdpp Require Import base list.
From Stdlib Require Import ZArith String Reals Lra Lia Psatz.

Local Open Scope R_scope.

(** ** Shared vocabulary *)

(** [Scalar] of [config/scalar.h]. *)
Abbreviation Scalar := R.

(** [kPI] of [util/math_constants.h]. *)
Definition kPI : Scalar := PI.

(** A fixed-size Eigen column of three entries ([Eigen::Matrix<_, 3, 1>]) or a
    [std::array<_, 3>].  Every index the code uses is a loop counter below 3. *)
Record Vec3 (A : Type) : Type := mkVec3 { v0 : A; v1 : A; v2 : A }.
Arguments mkVec3 {A} _ _ _.
Arguments v0 {A} _.
Arguments v1 {A} _.
Arguments v2 {A} _.

Definition vget {A} (v : Vec3 A) (n : nat) : A :=
  match n with
  | O => v0 v
  | S O => v1 v
  | _ => v2 v
  end.

Definition vset {A} (v : Vec3 A) (n : nat) (x : A) : Vec3 A :=
  match n with
  | O => mkVec3 x (v1 v) (v2 v)
  | S O => mkVec3 (v0 v) x (v2 v)
  | _ => mkVec3 (v0 v) (v1 v) x
  end.

Definition vsum (v : Vec3 Scalar) : Scalar := v0 v + v1 v + v2 v.

Definition vdot (a b : Vec3 Scalar) : Scalar :=
  v0 a * v0 b + v1 a * v1 b + v2 a * v2 b.

Definition vscale (a : Vec3 Scalar) (k : Scalar) : Vec3 Scalar :=
  mkVec3 (v0 a * k) (v1 a * k) (v2 a * k).

Definition vadd (a b : Vec3 Scalar) : Vec3 Scalar :=
  mkVec3 (v0 a + v0 b) (v1 a + v1 b) (v2 a + v2 b).

Definition vzero : Vec3 Scalar := mkVec3 0 0 0.

(** What a call can end in: it returns, or the process is terminated by
    [exit] after writing to standard output. *)
Inductive outcome (A : Type) : Type :=
  | Completed (a : A)
  | Exited (stdout : string) (code : Z).
Arguments Completed {A} _.
Arguments Exited {A} _ _.

(** [for (int n = first; n < first + count; ++n) body], where the body may
    terminate the process. *)
Fixpoint for_range {S : Type} (count first : nat)
    (body : nat -> S -> outcome S) (s : S) : outcome S :=
  match count with
  | O => Completed s
  | Datatypes.S k =>
      match body first s with
      | Completed s' => for_range k (Datatypes.S first) body s'
      | Exited out code => Exited out code
      end
  end.

(** The same loop with a body that always returns. *)
Fixpoint for_each {S : Type} (count first : nat)
    (body : nat -> S -> S) (s : S) : S :=
  match count with
  | O => s
  | Datatypes.S k => for_each k (Datatypes.S first) body (body first s)
  end.

(** The line feed that ["\n"] stands for in the sources. *)
Definition newline : string := String (Ascii.ascii_of_nat 10) EmptyString.

(** [std::fmod] on the reals: the dividend minus the quotient truncated
    towards zero times the divisor, so the result has the dividend's sign. *)
Definition Rtrunc (x : R) : Z :=
  if Rle_dec 0 x then Int_part x else (- Int_part (- x))%Z.

Definition fmod (x y : Scalar) : Scalar := x - IZR (Rtrunc (x / y)) * y.

(** ** simulator/simulator.cpp *)

Module Simulator.

(** Literals for use with switch states. *)
Definition LOW : Z := 0.
Definition HIGH : Z := 1.
Definition OFF : Z := 2.

(** Five coefficients or five sine samples ([Eigen::Matrix<Scalar, 5, 1>]). *)
Record Vec5 : Type := mkVec5 { c1 : Scalar; c3 : Scalar; c5 : Scalar; c7 : Scalar; c9 : Scalar }.

Definition dot5 (a b : Vec5) : Scalar :=
  c1 a * c1 b + c3 a * c3 b + c5 a * c5 b + c7 a * c7 b + c9 a * c9 b.

Definition vec5_of_list (l : list Scalar) : Vec5 :=
  mkVec5 (nth 0 l 0) (nth 1 l 0) (nth 2 l 0) (nth 3 l 0) (nth 4 l 0).

(** Modelled from the spec: [generate_odd_sine_series] of [sine_series.h] is
    not among the sources.  Given [n] and an angle it produces
    [sin a, sin 3a, sin 5a, ..., sin (2n-1)a]. *)
Definition generate_odd_sine_series (num_terms : nat) (angle : Scalar) : list Scalar :=
  map (fun k : nat => sin (INR (2 * k + 1) * angle)) (seq 0 num_terms).

(** The fields of [SimParams] ([sim_params.h]) that [step] and [main] read. *)
Record SimParams : Type := mkSimParams {
  dt : Scalar;
  bus_voltage : Scalar;
  i_diode_active : Scalar;
  v_diode_active : Scalar;
  normalized_bEmf_coeffs : Vec5;
  phase_resistance : Scalar;
  phase_inductance : Scalar;
  inertia_rotor : Scalar;
  num_pole_pairs : Z;
  step_multiplier : Z
}.

(** The fields of [SimState] that [step] reads or writes. *)
Record SimState : Type := mkSimState {
  time : Scalar;
  switches : Vec3 Z;
  i_coils : Vec3 Scalar;
  v_poles : Vec3 Scalar;
  bEmfs : Vec3 Scalar;
  v_neutral : Scalar;
  v_phases : Vec3 Scalar;
  torque : Scalar;
  angular_accel_rotor : Scalar;
  angular_vel_rotor : Scalar;
  angle_rotor : Scalar;
  angle_electrical : Scalar
}.

(** Field assignments [state->f = x]. *)
Definition set_time (x : Scalar) (s : SimState) : SimState :=
  mkSimState x (switches s) (i_coils s) (v_poles s) (bEmfs s) (v_neutral s)
    (v_phases s) (torque s) (angular_accel_rotor s) (angular_vel_rotor s)
    (angle_rotor s) (angle_electrical s).
Definition set_i_coils (x : Vec3 Scalar) (s : SimState) : SimState :=
  mkSimState (time s) (switches s) x (v_poles s) (bEmfs s) (v_neutral s)
    (v_phases s) (torque s) (angular_accel_rotor s) (angular_vel_rotor s)
    (angle_rotor s) (angle_electrical s).
Definition set_v_poles (x : Vec3 Scalar) (s : SimState) : SimState :=
  mkSimState (time s) (switches s) (i_coils s) x (bEmfs s) (v_neutral s)
    (v_phases s) (torque s) (angular_accel_rotor s) (angular_vel_rotor s)
    (angle_rotor s) (angle_electrical s).
Definition set_bEmfs (x : Vec3 Scalar) (s : SimState) : SimState :=
  mkSimState (time s) (switches s) (i_coils s) (v_poles s) x (v_neutral s)
    (v_phases s) (torque s) (angular_accel_rotor s) (angular_vel_rotor s)
    (angle_rotor s) (angle_electrical s).
Definition set_v_neutral (x : Scalar) (s : SimState) : SimState :=
  mkSimState (time s) (switches s) (i_coils s) (v_poles s) (bEmfs s) x
    (v_phases s) (torque s) (angular_accel_rotor s) (angular_vel_rotor s)
    (angle_rotor s) (angle_electrical s).
Definition set_v_phases (x : Vec3 Scalar) (s : SimState) : SimState :=
  mkSimState (time s) (switches s) (i_coils s) (v_poles s) (bEmfs s)
    (v_neutral s) x (torque s) (angular_accel_rotor s) (angular_vel_rotor s)
    (angle_rotor s) (angle_electrical s).
Definition set_torque (x : Scalar) (s : SimState) : SimState :=
  mkSimState (time s) (switches s) (i_coils s) (v_poles s) (bEmfs s)
    (v_neutral s) (v_phases s) x (angular_accel_rotor s) (angular_vel_rotor s)
    (angle_rotor s) (angle_electrical s).
Definition set_angular_accel_rotor (x : Scalar) (s : SimState) : SimState :=
  mkSimState (time s) (switches s) (i_coils s) (v_poles s) (bEmfs s)
    (v_neutral s) (v_phases s) (torque s) x (angular_vel_rotor s)
    (angle_rotor s) (angle_electrical s).
Definition set_angular_vel_rotor (x : Scalar) (s : SimState) : SimState :=
  mkSimState (time s) (switches s) (i_coils s) (v_poles s) (bEmfs s)
    (v_neutral s) (v_phases s) (torque s) (angular_accel_rotor s) x
    (angle_rotor s) (angle_electrical s).
Definition set_angle_rotor (x : Scalar) (s : SimState) : SimState :=
  mkSimState (time s) (switches s) (i_coils s) (v_poles s) (bEmfs s)
    (v_neutral s) (v_phases s) (torque s) (angular_accel_rotor s)
    (angular_vel_rotor s) x (angle_electrical s).
Definition set_angle_electrical (x : Scalar) (s : SimState) : SimState :=
  mkSimState (time s) (switches s) (i_coils s) (v_poles s) (bEmfs s)
    (v_neutral s) (v_phases s) (torque s) (angular_accel_rotor s)
    (angular_vel_rotor s) (angle_rotor s) x.

Definition get_back_emf (normalized_bEmf_coeffs : Vec5) (angle_electrical : Scalar) : Scalar :=
  let sines := vec5_of_list (generate_odd_sine_series 5 angle_electrical) in
  dot5 sines normalized_bEmf_coeffs.

(** The body of the first loop of [step]: the pole voltage of phase [n]. *)
Definition apply_pole_voltage (params : SimParams) (n : nat) (state : SimState)
    : outcome SimState :=
  let sw := vget (switches state) n in
  if (sw =? OFF)%Z then
    let state1 :=
      if Rlt_dec 0 (vget (i_coils state) n)
      then set_v_poles (vset (v_poles state) n 0) state
      else set_v_poles (vset (v_poles state) n (bus_voltage params)) state in
    let state2 :=
      if Rlt_dec (i_diode_active params) (Rabs (vget (i_coils state1) n))
      then set_v_poles (vset (v_poles state1) n
                          (vget (v_poles state1) n - v_diode_active params)) state1
      else state1 in
    Completed state2
  else if (sw =? HIGH)%Z then
    Completed (set_v_poles (vset (v_poles state) n (bus_voltage params)) state)
  else if (sw =? LOW)%Z then
    Completed (set_v_poles (vset (v_poles state) n 0) state)
  else
    Exited "Unhandled switch case!" (-1).

(** The three normalized back EMFs, at the electrical angle and at the angle
    shifted by a third of a turn either way. *)
Definition compute_normalized_bEmfs (params : SimParams) (state : SimState) : Vec3 Scalar :=
  mkVec3
    (get_back_emf (normalized_bEmf_coeffs params) (angle_electrical state))
    (get_back_emf (normalized_bEmf_coeffs params) (angle_electrical state + 2 * kPI / 3))
    (get_back_emf (normalized_bEmf_coeffs params) (angle_electrical state - 2 * kPI / 3)).

(** [step], after the pole voltages have been applied. *)
Definition step_body (params : SimParams) (state : SimState) : SimState :=
  let normalized_bEmfs := compute_normalized_bEmfs params state in
  let state := set_bEmfs (vscale normalized_bEmfs (angular_vel_rotor state)) state in
  let state := set_v_neutral ((vsum (v_poles state) - vsum (bEmfs state)) / 3) state in
  let state :=
    for_each 3 0 (fun n st =>
      set_v_phases (vset (v_phases st) n (vget (v_poles st) n - v_neutral st)) st) state in
  let di_dt :=
    for_each 3 0 (fun n d =>
      vset d n ((vget (v_phases state) n - vget (bEmfs state) n
                 - vget (i_coils state) n * phase_resistance params)
                / phase_inductance params)) vzero in
  let state := set_i_coils (vadd (i_coils state) (vscale di_dt (dt params))) state in
  let state := set_torque (vdot (i_coils state) normalized_bEmfs) state in
  let state := set_angular_accel_rotor (torque state / inertia_rotor params) state in
  let state := set_angular_vel_rotor
                 (angular_vel_rotor state + angular_accel_rotor state * dt params) state in
  let state := set_angle_rotor (angle_rotor state + angular_vel_rotor state * dt params) state in
  let state := set_angle_rotor (fmod (angle_rotor state) (2 * kPI)) state in
  let state := set_angle_electrical (angle_rotor state * IZR (num_pole_pairs params)) state in
  set_angle_electrical (fmod (angle_electrical state) (2 * kPI)) state.

Definition step (params : SimParams) (state : SimState) : outcome SimState :=
  let state := set_time (time state + dt params) state in
  match for_range 3 0 (apply_pole_voltage params) state with
  | Completed state => Completed (step_body params state)
  | Exited out code => Exited out code
  end.

(** *** The host loop of [main]

    The run of the program is driven from outside: the window system delivers
    events and [run_gui] edits the parameters, the state and [should_step].
    A run is given by the passes of the loop that come before the quit event;
    each pass is the edit [run_gui] performs in it.  A log records each pass,
    with the [should_step] and [step_multiplier] that [run_gui] left, and each
    call of [step]. *)

Inductive Event : Type :=
  | EvFrame (should : bool) (multiplier : Z)
  | EvStep.

Record Host : Type := mkHost {
  host_params : SimParams;
  host_state : SimState;
  should_step : bool;
  host_log : list Event
}.

Definition Frame : Type := SimParams -> SimState -> bool -> SimParams * SimState * bool.

(** A call [step(params, &state)]. *)
Definition call_step (h : Host) : outcome Host :=
  match step (host_params h) (host_state h) with
  | Completed state' =>
      Completed (mkHost (host_params h) state' (should_step h) (host_log h ++ [EvStep]))
  | Exited out code => Exited out code
  end.

(** One pass of the loop that is not the quit event: [run_gui], then the
    stepping loop. *)
Definition run_frame (run_gui : Frame) (h : Host) : outcome Host :=
  let '(params, state, should) := run_gui (host_params h) (host_state h) (should_step h) in
  let h := mkHost params state should
             (host_log h ++ [EvFrame should (step_multiplier params)]) in
  if should_step h
  then for_range (Z.to_nat (step_multiplier (host_params h))) 0 (fun _ => call_step) h
  else Completed h.

(** [while (!quit_flag)]: the passes in turn, until the quit event. *)
Fixpoint host_loop (frames : list Frame) (h : Host) : outcome Host :=
  match frames with
  | [] => Completed h
  | run_gui :: rest =>
      match run_frame run_gui h with
      | Completed h' => host_loop rest h'
      | Exited out code => Exited out code
      end
  end.

(** [main]: the value it returns, with the host's last state.  [sdl_status]
    is [sdl_context.status_] and [gl_loaded] the result of [gladLoadGL]. *)
Definition main (sdl_status : Z) (gl_loaded : Z) (params : SimParams) (state : SimState)
    (frames : list Frame) : outcome (Z * Host) :=
  let h := mkHost params state false [] in
  if negb (sdl_status =? 0)%Z then Completed ((-1)%Z, h)
  else if (gl_loaded =? 0)%Z
  then Exited ("Failed to initialize OpenGL loader!" ++ newline) (-1)
  else
    match host_loop frames h with
    | Completed h =>
        match call_step h with
        | Completed h => Completed (0%Z, h)
        | Exited out code => Exited out code
        end
    | Exited out code => Exited out code
    end.

(** *** What the specification says of the step *)

Definition valid_switch (sw : Z) : Prop := sw = LOW \/ sw = HIGH \/ sw = OFF.

Definition valid_switches (state : SimState) : Prop :=
  forall n : nat, (n < 3)%nat -> valid_switch (vget (switches state) n).

(** The pole voltage [step] stores for a phase, read off the three cases of
    its switch statement, for a switch value that has a case. *)
Definition pole_voltage (params : SimParams) (sw : Z) (i : Scalar) : Scalar :=
  if (sw =? OFF)%Z then
    let rail := if Rlt_dec 0 i then 0 else bus_voltage params in
    if Rlt_dec (i_diode_active params) (Rabs i)
    then rail - v_diode_active params
    else rail
  else if (sw =? HIGH)%Z then bus_voltage params
  else 0.

(** The pole voltages the first loop leaves, phase by phase. *)
Definition applied_poles (params : SimParams) (state : SimState) : Vec3 Scalar :=
  mkVec3 (pole_voltage params (vget (switches state) 0) (vget (i_coils state) 0))
         (pole_voltage params (vget (switches state) 1) (vget (i_coils state) 1))
         (pole_voltage params (vget (switches state) 2) (vget (i_coils state) 2)).

(** The specification's diode freewheeling for a gate that is OFF, above the
    diode-active threshold: the low-side diode conducts for a positive
    current, the high-side diode for a negative one. *)
Definition spec_freewheel_voltage (bus diode_active_voltage i : Scalar) : Scalar :=
  if Rlt_dec 0 i then - diode_active_voltage else bus + diode_active_voltage.

(** The specification's normed back EMF: the odd-harmonic sine series. *)
Definition spec_normed_bEmf (a : Vec5) (theta_e : Scalar) : Scalar :=
  c1 a * sin theta_e + c3 a * sin (3 * theta_e) + c5 a * sin (5 * theta_e)
  + c7 a * sin (7 * theta_e) + c9 a * sin (9 * theta_e).

(** The specification's phase offsets. *)
Definition phase_offset (n : nat) : Scalar :=
  match n with
  | O => 0
  | S O => 2 * PI / 3
  | _ => - (2 * PI / 3)
  end.

Definition spec_bEmf (params : SimParams) (theta_e omega : Scalar) (n : nat) : Scalar :=
  spec_normed_bEmf (normalized_bEmf_coeffs params) (theta_e + phase_offset n) * omega.

Definition spec_v_neutral (v_pole bEmf : nat -> Scalar) : Scalar :=
  ((v_pole 0%nat + v_pole 1%nat + v_pole 2%nat)
   - (bEmf 0%nat + bEmf 1%nat + bEmf 2%nat)) / 3.

Definition spec_di_dt (params : SimParams) (v_phase bEmf i : Scalar) : Scalar :=
  (v_phase - bEmf - phase_resistance params * i) / phase_inductance params.

(** The specification's electromagnetic torque, from the currents [i] and the
    electrical angle [theta_e]. *)
Definition spec_em_torque (params : SimParams) (i : Vec3 Scalar) (theta_e : Scalar) : Scalar :=
  vget i 0 * spec_normed_bEmf (normalized_bEmf_coeffs params) (theta_e + phase_offset 0)
  + vget i 1 * spec_normed_bEmf (normalized_bEmf_coeffs params) (theta_e + phase_offset 1)
  + vget i 2 * spec_normed_bEmf (normalized_bEmf_coeffs params) (theta_e + phase_offset 2).

(** The specification's total torque: the cogging torque [tau_cogging] looked
    up at the rotor angle is added and the load torque subtracted. *)
Definition spec_total_torque (params : SimParams) (tau_cogging : Scalar -> Scalar)
    (load_torque : Scalar) (i : Vec3 Scalar) (theta_e rotor_angle : Scalar) : Scalar :=
  spec_em_torque params i theta_e + tau_cogging rotor_angle - load_torque.

(** The number of [step] calls a log records. *)
Fixpoint count_steps (log : list Event) : nat :=
  match log with
  | [] => O
  | EvStep :: rest => S (count_steps rest)
  | EvFrame _ _ :: rest => count_steps rest
  end.

(** The [step] calls the specification allots to the passes a log records:
    [step_multiplier] of them for each pass with stepping enabled. *)
Fixpoint allotted_steps (log : list Event) : nat :=
  match log with
  | [] => O
  | EvFrame should multiplier :: rest =>
      ((if should then Z.to_nat multiplier else O) + allotted_steps rest)%nat
  | EvStep :: rest => allotted_steps rest
  end.

(** What one pass of the host loop logs: the pass, then its [step] calls. *)
Definition frame_block (setting : bool * Z) : list Event :=
  EvFrame (fst setting) (snd setting)
  :: repeat EvStep (if fst setting then Z.to_nat (snd setting) else O).

(** [run_gui] keeps the switch values among those that have a case in
    [step]. *)
Definition keeps_switches_valid (run_gui : Frame) : Prop :=
  forall params state should,
    valid_switches state ->
    valid_switches (snd (fst (run_gui params state should))).

(** [k] calls of [step] in a row. *)
Fixpoint steps (k : nat) (params : SimParams) (state : SimState) : outcome SimState :=
  match k with
  | O => Completed state
  | S k' =>
      match step params state with
      | Completed state' => steps k' params state'
      | Exited out code => Exited out code
      end
  end.

(** *** States and parameters of the examples *)

(** The example of a gate that is OFF while a current of 1 A flows into the
    pole, on a 24 V bus with a diode drop of 1 V. *)
Definition freewheel_params : SimParams :=
  mkSimParams (1 / 1000000) 24 (1 / 1000) 1 (mkVec5 (1 / 20) 0 0 0 0)
    1 (1 / 1000) 1 4 1.

Definition freewheel_state : SimState :=
  mkSimState 0 (mkVec3 OFF LOW HIGH) (mkVec3 (-1) 0 1) vzero vzero 0 vzero 0 0 0 0 0.

(** A motor at rest with every gate LOW. *)
Definition rest_state : SimState :=
  mkSimState 0 (mkVec3 LOW LOW LOW) vzero vzero vzero 0 vzero 0 0 0 0 0.

(** The motor of the freewheel example with every gate LOW, no current, at
    angle 0 and turning backwards at 1 rad/s. *)
Definition reverse_state : SimState :=
  mkSimState 0 (mkVec3 LOW LOW LOW) vzero vzero vzero 0 vzero 0 0 (-1) 0 0.

(** A state whose second switch holds 7. *)
Definition stuck_state : SimState :=
  mkSimState 0 (mkVec3 LOW 7%Z OFF) vzero vzero vzero 0 vzero 0 0 0 0 0.

(** A pass in which the operator enables stepping with a multiplier of 3. *)
Definition stepping_frame : Frame :=
  fun params state _ =>
    (mkSimParams (dt params) (bus_voltage params) (i_diode_active params)
       (v_diode_active params) (normalized_bEmf_coeffs params) (phase_resistance params)
       (phase_inductance params) (inertia_rotor params) (num_pole_pairs params) 3,
     state, true).

End Simulator.

(** ** simulator/gui.cpp *)

Module Gui.

(** The gate states of [board/gate_state.h], which is not among the sources.
    [update_rolling_buffers] and [draw_gate_plot] fix LOW at 0 and HIGH at 1;
    OFF is given the value [simulator.cpp] spells out. *)
Definition LOW : Z := 0.
Definition HIGH : Z := 1.
Definition OFF : Z := 2.

(** A complex number, real part first. *)
Definition Complex : Type := Scalar * Scalar.

Definition cmul (a b : Complex) : Complex :=
  (fst a * fst b - snd a * snd b, fst a * snd b + snd a * fst b).

(** Modelled from the spec: [kClarkeTransform2x3] is declared in
    [util/clarke_transform.h] and defined in [clarke_transform.cpp], which is
    not among the sources.  It is the amplitude-invariant 2x3 transform:
    alpha = (2a - b - c)/3, beta = (b - c)/sqrt 3. *)
Definition kClarkeTransform2x3 : Vec3 Scalar * Vec3 Scalar :=
  (mkVec3 (2 / 3) (- (1 / 3)) (- (1 / 3)),
   mkVec3 0 (1 / sqrt 3) (- (1 / sqrt 3))).

(** Modelled from the spec: [clarke_transform] ([util/clarke_transform.h]) is
    not among the sources.  Its output is the complex number alpha + j beta. *)
Definition clarke_transform (v : Vec3 Scalar) : Complex :=
  (vdot (fst kClarkeTransform2x3) v, vdot (snd kClarkeTransform2x3) v).

(** Modelled from the spec: the inverse Clarke transform is not among the
    sources, and the specification names it without a formula.  It is the
    inverse of the amplitude-invariant transform on the balanced triples:
    a = alpha, b = -alpha/2 + (sqrt 3 / 2) beta, c = -alpha/2 - (sqrt 3 / 2) beta. *)
Definition inverse_clarke (s : Complex) : Vec3 Scalar :=
  mkVec3 (fst s)
         (- (fst s) / 2 + sqrt 3 / 2 * snd s)
         (- (fst s) / 2 - sqrt 3 / 2 * snd s).

(** Modelled from the spec: [get_rotation] ([util/rotation.h]) is not among
    the sources: rot(phi) = cos phi + j sin phi. *)
Definition get_rotation (phi : Scalar) : Complex := (cos phi, sin phi).

(** Modelled from the spec: [get_q_axis_electrical_angle] ([motor.h]) is not
    among the sources: pole_pairs * rotor_angle - pi/2. *)
Definition get_q_axis_electrical_angle (num_pole_pairs : Z) (rotor_angle : Scalar) : Scalar :=
  IZR num_pole_pairs * rotor_angle - kPI / 2.

(** The fields of the board, motor and controller states that the observers
    read ([board/*.h], [motor_state.h], [controls/foc_state.h]). *)
Record GateState : Type := mkGateState {
  commanded : Vec3 bool;
  actual : Vec3 Z;
  dead_time : Scalar;
  diode_active_voltage : Scalar
}.

Record PwmState : Type := mkPwmState {
  duties : Vec3 Scalar;
  level : Scalar;
  resolution : Scalar
}.

Record BoardState : Type := mkBoardState {
  bus_voltage : Scalar;
  gate : GateState;
  pwm : PwmState
}.

Record MotorParams : Type := mkMotorParams {
  num_pole_pairs : Z;
  rotor_inertia : Scalar;
  phase_inductance : Scalar;
  phase_resistance : Scalar;
  normed_bEmf_coeffs : Simulator.Vec5;
  cogging_torque_map : list Scalar
}.

Record MotorKinematic : Type := mkMotorKinematic {
  rotor_angle : Scalar;
  rotor_angular_vel : Scalar;
  torque : Scalar
}.

Record MotorElectrical : Type := mkMotorElectrical {
  phase_currents : Vec3 Scalar;
  bEmfs : Vec3 Scalar;
  normed_bEmfs : Vec3 Scalar
}.

Record MotorState : Type := mkMotorState {
  params : MotorParams;
  kinematic : MotorKinematic;
  electrical : MotorElectrical
}.

Record PiContext : Type := mkPiContext {
  err : Scalar;
  integral : Scalar
}.

Record FocState : Type := mkFocState {
  iq_controller : PiContext;
  id_controller : PiContext
}.

(** *** The rolling buffers *)

(** Modelled from the spec: [util/rolling_buffer.h] is not among the sources.
    A ring buffer of fixed capacity: [advance] post-increments the write
    index and wraps it at the capacity, [count] is the smaller of the number
    of writes and the capacity, [begin] is the oldest valid index and [back]
    the newest. *)
Record RollingBufferContext : Type := mkRollingBufferContext {
  capacity : nat;
  next_idx : nat;
  writes : nat
}.

Definition rolling_buffer_advance_idx (c : RollingBufferContext) : RollingBufferContext :=
  mkRollingBufferContext (capacity c)
    (if (S (next_idx c) <? capacity c)%nat then S (next_idx c) else O)
    (S (writes c)).

Definition get_rolling_buffer_count (c : RollingBufferContext) : nat :=
  Nat.min (writes c) (capacity c).

Definition get_rolling_buffer_begin (c : RollingBufferContext) : nat :=
  if (writes c <=? capacity c)%nat then O else next_idx c.

Definition get_rolling_buffer_back (c : RollingBufferContext) : nat :=
  match next_idx c with
  | O => Nat.pred (capacity c)
  | S k => k
  end.

(** The channels of [RollingBuffers] ([gui.h]): one array of
    [kNumRollingPts] samples each, three of them for a per-phase channel. *)
Record RollingBuffers : Type := mkRollingBuffers {
  rb_ctx : RollingBufferContext;
  rb_timestamps : list Scalar;
  rb_phase_vs : Vec3 (list Scalar);
  rb_phase_currents : Vec3 (list Scalar);
  rb_bEmfs : Vec3 (list Scalar);
  rb_normed_bEmfs : Vec3 (list Scalar);
  rb_pwm_duties : Vec3 (list Scalar);
  rb_pwm_level : list Scalar;
  rb_gate_states : Vec3 (list Scalar);
  rb_current_q : list Scalar;
  rb_current_d : list Scalar;
  rb_current_q_err : list Scalar;
  rb_current_q_integral : list Scalar;
  rb_current_d_err : list Scalar;
  rb_current_d_integral : list Scalar;
  rb_power_draw : list Scalar;
  rb_rotor_angular_vel : list Scalar;
  rb_torque : list Scalar
}.

(** Assignments to one channel of the buffers. *)
Definition set_ctx (x : RollingBufferContext) (b : RollingBuffers) : RollingBuffers :=
  mkRollingBuffers x (rb_timestamps b) (rb_phase_vs b) (rb_phase_currents b)
    (rb_bEmfs b) (rb_normed_bEmfs b) (rb_pwm_duties b) (rb_pwm_level b)
    (rb_gate_states b) (rb_current_q b) (rb_current_d b) (rb_current_q_err b)
    (rb_current_q_integral b) (rb_current_d_err b) (rb_current_d_integral b)
    (rb_power_draw b) (rb_rotor_angular_vel b) (rb_torque b).
Definition set_timestamps (x : list Scalar) (b : RollingBuffers) : RollingBuffers :=
  mkRollingBuffers (rb_ctx b) x (rb_phase_vs b) (rb_phase_currents b) (rb_bEmfs b)
    (rb_normed_bEmfs b) (rb_pwm_duties b) (rb_pwm_level b) (rb_gate_states b)
    (rb_current_q b) (rb_current_d b) (rb_current_q_err b) (rb_current_q_integral b)
    (rb_current_d_err b) (rb_current_d_integral b) (rb_power_draw b)
    (rb_rotor_angular_vel b) (rb_torque b).
Definition set_phase_vs (x : Vec3 (list Scalar)) (b : RollingBuffers) : RollingBuffers :=
  mkRollingBuffers (rb_ctx b) (rb_timestamps b) x (rb_phase_currents b) (rb_bEmfs b)
    (rb_normed_bEmfs b) (rb_pwm_duties b) (rb_pwm_level b) (rb_gate_states b)
    (rb_current_q b) (rb_current_d b) (rb_current_q_err b) (rb_current_q_integral b)
    (rb_current_d_err b) (rb_current_d_integral b) (rb_power_draw b)
    (rb_rotor_angular_vel b) (rb_torque b).
Definition set_phase_currents (x : Vec3 (list Scalar)) (b : RollingBuffers) : RollingBuffers :=
  mkRollingBuffers (rb_ctx b) (rb_timestamps b) (rb_phase_vs b) x (rb_bEmfs b)
    (rb_normed_bEmfs b) (rb_pwm_duties b) (rb_pwm_level b) (rb_gate_states b)
    (rb_current_q b) (rb_current_d b) (rb_current_q_err b) (rb_current_q_integral b)
    (rb_current_d_err b) (rb_current_d_integral b) (rb_power_draw b)
    (rb_rotor_angular_vel b) (rb_torque b).
Definition set_bEmfs (x : Vec3 (list Scalar)) (b : RollingBuffers) : RollingBuffers :=
  mkRollingBuffers (rb_ctx b) (rb_timestamps b) (rb_phase_vs b) (rb_phase_currents b)
    x (rb_normed_bEmfs b) (rb_pwm_duties b) (rb_pwm_level b) (rb_gate_states b)
    (rb_current_q b) (rb_current_d b) (rb_current_q_err b) (rb_current_q_integral b)
    (rb_current_d_err b) (rb_current_d_integral b) (rb_power_draw b)
    (rb_rotor_angular_vel b) (rb_torque b).
Definition set_normed_bEmfs (x : Vec3 (list Scalar)) (b : RollingBuffers) : RollingBuffers :=
  mkRollingBuffers (rb_ctx b) (rb_timestamps b) (rb_phase_vs b) (rb_phase_currents b)
    (rb_bEmfs b) x (rb_pwm_duties b) (rb_pwm_level b) (rb_gate_states b)
    (rb_current_q b) (rb_current_d b) (rb_current_q_err b) (rb_current_q_integral b)
    (rb_current_d_err b) (rb_current_d_integral b) (rb_power_draw b)
    (rb_rotor_angular_vel b) (rb_torque b).
Definition set_pwm_duties (x : Vec3 (list Scalar)) (b : RollingBuffers) : RollingBuffers :=
  mkRollingBuffers (rb_ctx b) (rb_timestamps b) (rb_phase_vs b) (rb_phase_currents b)
    (rb_bEmfs b) (rb_normed_bEmfs b) x (rb_pwm_level b) (rb_gate_states b)
    (rb_current_q b) (rb_current_d b) (rb_current_q_err b) (rb_current_q_integral b)
    (rb_current_d_err b) (rb_current_d_integral b) (rb_power_draw b)
    (rb_rotor_angular_vel b) (rb_torque b).
Definition set_pwm_level (x : list Scalar) (b : RollingBuffers) : RollingBuffers :=
  mkRollingBuffers (rb_ctx b) (rb_timestamps b) (rb_phase_vs b) (rb_phase_currents b)
    (rb_bEmfs b) (rb_normed_bEmfs b) (rb_pwm_duties b) x (rb_gate_states b)
    (rb_current_q b) (rb_current_d b) (rb_current_q_err b) (rb_current_q_integral b)
    (rb_current_d_err b) (rb_current_d_integral b) (rb_power_draw b)
    (rb_rotor_angular_vel b) (rb_torque b).
Definition set_gate_states (x : Vec3 (list Scalar)) (b : RollingBuffers) : RollingBuffers :=
  mkRollingBuffers (rb_ctx b) (rb_timestamps b) (rb_phase_vs b) (rb_phase_currents b)
    (rb_bEmfs b) (rb_normed_bEmfs b) (rb_pwm_duties b) (rb_pwm_level b) x
    (rb_current_q b) (rb_current_d b) (rb_current_q_err b) (rb_current_q_integral b)
    (rb_current_d_err b) (rb_current_d_integral b) (rb_power_draw b)
    (rb_rotor_angular_vel b) (rb_torque b).
Definition set_current_q (x : list Scalar) (b : RollingBuffers) : RollingBuffers :=
  mkRollingBuffers (rb_ctx b) (rb_timestamps b) (rb_phase_vs b) (rb_phase_currents b)
    (rb_bEmfs b) (rb_normed_bEmfs b) (rb_pwm_duties b) (rb_pwm_level b)
    (rb_gate_states b) x (rb_current_d b) (rb_current_q_err b)
    (rb_current_q_integral b) (rb_current_d_err b) (rb_current_d_integral b)
    (rb_power_draw b) (rb_rotor_angular_vel b) (rb_torque b).
Definition set_current_d (x : list Scalar) (b : RollingBuffers) : RollingBuffers :=
  mkRollingBuffers (rb_ctx b) (rb_timestamps b) (rb_phase_vs b) (rb_phase_currents b)
    (rb_bEmfs b) (rb_normed_bEmfs b) (rb_pwm_duties b) (rb_pwm_level b)
    (rb_gate_states b) (rb_current_q b) x (rb_current_q_err b)
    (rb_current_q_integral b) (rb_current_d_err b) (rb_current_d_integral b)
    (rb_power_draw b) (rb_rotor_angular_vel b) (rb_torque b).
Definition set_current_q_err (x : list Scalar) (b : RollingBuffers) : RollingBuffers :=
  mkRollingBuffers (rb_ctx b) (rb_timestamps b) (rb_phase_vs b) (rb_phase_currents b)
    (rb_bEmfs b) (rb_normed_bEmfs b) (rb_pwm_duties b) (rb_pwm_level b)
    (rb_gate_states b) (rb_current_q b) (rb_current_d b) x (rb_current_q_integral b)
    (rb_current_d_err b) (rb_current_d_integral b) (rb_power_draw b)
    (rb_rotor_angular_vel b) (rb_torque b).
Definition set_current_q_integral (x : list Scalar) (b : RollingBuffers) : RollingBuffers :=
  mkRollingBuffers (rb_ctx b) (rb_timestamps b) (rb_phase_vs b) (rb_phase_currents b)
    (rb_bEmfs b) (rb_normed_bEmfs b) (rb_pwm_duties b) (rb_pwm_level b)
    (rb_gate_states b) (rb_current_q b) (rb_current_d b) (rb_current_q_err b) x
    (rb_current_d_err b) (rb_current_d_integral b) (rb_power_draw b)
    (rb_rotor_angular_vel b) (rb_torque b).
Definition set_current_d_err (x : list Scalar) (b : RollingBuffers) : RollingBuffers :=
  mkRollingBuffers (rb_ctx b) (rb_timestamps b) (rb_phase_vs b) (rb_phase_currents b)
    (rb_bEmfs b) (rb_normed_bEmfs b) (rb_pwm_duties b) (rb_pwm_level b)
    (rb_gate_states b) (rb_current_q b) (rb_current_d b) (rb_current_q_err b)
    (rb_current_q_integral b) x (rb_current_d_integral b) (rb_power_draw b)
    (rb_rotor_angular_vel b) (rb_torque b).
Definition set_current_d_integral (x : list Scalar) (b : RollingBuffers) : RollingBuffers :=
  mkRollingBuffers (rb_ctx b) (rb_timestamps b) (rb_phase_vs b) (rb_phase_currents b)
    (rb_bEmfs b) (rb_normed_bEmfs b) (rb_pwm_duties b) (rb_pwm_level b)
    (rb_gate_states b) (rb_current_q b) (rb_current_d b) (rb_current_q_err b)
    (rb_current_q_integral b) (rb_current_d_err b) x (rb_power_draw b)
    (rb_rotor_angular_vel b) (rb_torque b).
Definition set_power_draw (x : list Scalar) (b : RollingBuffers) : RollingBuffers :=
  mkRollingBuffers (rb_ctx b) (rb_timestamps b) (rb_phase_vs b) (rb_phase_currents b)
    (rb_bEmfs b) (rb_normed_bEmfs b) (rb_pwm_duties b) (rb_pwm_level b)
    (rb_gate_states b) (rb_current_q b) (rb_current_d b) (rb_current_q_err b)
    (rb_current_q_integral b) (rb_current_d_err b) (rb_current_d_integral b) x
    (rb_rotor_angular_vel b) (rb_torque b).
Definition set_rotor_angular_vel (x : list Scalar) (b : RollingBuffers) : RollingBuffers :=
  mkRollingBuffers (rb_ctx b) (rb_timestamps b) (rb_phase_vs b) (rb_phase_currents b)
    (rb_bEmfs b) (rb_normed_bEmfs b) (rb_pwm_duties b) (rb_pwm_level b)
    (rb_gate_states b) (rb_current_q b) (rb_current_d b) (rb_current_q_err b)
    (rb_current_q_integral b) (rb_current_d_err b) (rb_current_d_integral b)
    (rb_power_draw b) x (rb_torque b).
Definition set_torque (x : list Scalar) (b : RollingBuffers) : RollingBuffers :=
  mkRollingBuffers (rb_ctx b) (rb_timestamps b) (rb_phase_vs b) (rb_phase_currents b)
    (rb_bEmfs b) (rb_normed_bEmfs b) (rb_pwm_duties b) (rb_pwm_level b)
    (rb_gate_states b) (rb_current_q b) (rb_current_d b) (rb_current_q_err b)
    (rb_current_q_integral b) (rb_current_d_err b) (rb_current_d_integral b)
    (rb_power_draw b) (rb_rotor_angular_vel b) x.

(** A write [a[idx] = x] into one of three per-phase arrays. *)
Definition vwrite (a : Vec3 (list Scalar)) (i idx : nat) (x : Scalar) : Vec3 (list Scalar) :=
  vset a i (<[idx := x]> (vget a i)).

(** The gate state as it is plotted: the indeterminate state is mapped
    to -0.5. *)
Definition plotted_gate_state (actual_state : Z) : Scalar :=
  if (actual_state =? OFF)%Z then - (1 / 2) else IZR actual_state.

(** The power calculation of [update_rolling_buffers]: v*i for all i's that
    are flowing into the gates. *)
Definition compute_power_draw (board : BoardState) (motor : MotorState) : Scalar :=
  for_each 3 0 (fun i power_draw =>
    if (vget (actual (gate board)) i =? HIGH)%Z
    then power_draw + bus_voltage board * vget (phase_currents (electrical motor)) i
    else power_draw) 0.

Section Observers.

(** [get_pole_voltages] and [get_phase_voltages] of [motor.h], which are not
    among the sources, and the text that [operator<<] writes for a Scalar. *)
Variable get_pole_voltages : Scalar -> Vec3 Scalar -> GateState -> Vec3 Scalar.
Variable get_phase_voltages : Vec3 Scalar -> Vec3 Scalar -> Vec3 Scalar.
Variable show : Scalar -> string.

(** The body of the per-phase loop of [update_rolling_buffers]. *)
Definition update_phase (board : BoardState) (motor : MotorState) (foc : FocState)
    (phase_voltages : Vec3 Scalar) (next : nat) (i : nat) (b : RollingBuffers)
    : RollingBuffers :=
  let b := set_phase_vs (vwrite (rb_phase_vs b) i next (vget phase_voltages i)) b in
  let b := set_phase_currents
             (vwrite (rb_phase_currents b) i next
                (vget (phase_currents (electrical motor)) i)) b in
  let b := set_bEmfs (vwrite (rb_bEmfs b) i next (vget (bEmfs (electrical motor)) i)) b in
  let b := set_normed_bEmfs
             (vwrite (rb_normed_bEmfs b) i next
                (vget (normed_bEmfs (electrical motor)) i)) b in
  let b := set_pwm_duties (vwrite (rb_pwm_duties b) i next (vget (duties (pwm board)) i)) b in
  let b := set_pwm_level (<[next := level (pwm board)]> (rb_pwm_level b)) b in
  let gate_state := plotted_gate_state (vget (actual (gate board)) i) in
  let b := set_gate_states (vwrite (rb_gate_states b) i next gate_state) b in
  let q_axis_electrical_angle :=
    get_q_axis_electrical_angle (num_pole_pairs (params motor))
      (rotor_angle (kinematic motor)) in
  let park_transform := get_rotation (- q_axis_electrical_angle) in
  let current_qd :=
    cmul park_transform (clarke_transform (phase_currents (electrical motor))) in
  let b := set_current_q (<[next := fst current_qd]> (rb_current_q b)) b in
  let b := set_current_d (<[next := snd current_qd]> (rb_current_d b)) b in
  let b := set_current_q_err (<[next := err (iq_controller foc)]> (rb_current_q_err b)) b in
  let b := set_current_q_integral
             (<[next := integral (iq_controller foc)]> (rb_current_q_integral b)) b in
  let b := set_current_d_err (<[next := err (id_controller foc)]> (rb_current_d_err b)) b in
  set_current_d_integral
    (<[next := integral (id_controller foc)]> (rb_current_d_integral b)) b.

Definition update_rolling_buffers (time : Scalar) (board : BoardState)
    (motor : MotorState) (foc : FocState) (buffers : RollingBuffers) : RollingBuffers :=
  let next := next_idx (rb_ctx buffers) in
  let b := set_timestamps (<[next := time]> (rb_timestamps buffers)) buffers in
  let pole_voltages :=
    get_pole_voltages (bus_voltage board) (phase_currents (electrical motor)) (gate board) in
  let phase_voltages := get_phase_voltages pole_voltages (bEmfs (electrical motor)) in
  let b := for_each 3 0 (update_phase board motor foc phase_voltages next) b in
  let power := compute_power_draw board motor in
  let b := set_power_draw (<[next := power]> (rb_power_draw b)) b in
  let b := set_current_d_integral
             (<[next := integral (id_controller foc)]> (rb_current_d_integral b)) b in
  let b := set_rotor_angular_vel
             (<[next := rotor_angular_vel (kinematic motor)]> (rb_rotor_angular_vel b)) b in
  let b := set_torque (<[next := torque (kinematic motor)]> (rb_torque b)) b in
  set_ctx (rolling_buffer_advance_idx (rb_ctx b)) b.

(** *** [to_csv] *)

Definition NamedField : Type := string * list Scalar.

Definition csv_fields (rolling_buffers : RollingBuffers) : list NamedField :=
  [ ("timestamp"%string, rb_timestamps rolling_buffers);
    ("torque"%string, rb_torque rolling_buffers);
    ("bEmf_a"%string, vget (rb_bEmfs rolling_buffers) 0);
    ("bEmf_b"%string, vget (rb_bEmfs rolling_buffers) 1);
    ("bEmf_c"%string, vget (rb_bEmfs rolling_buffers) 2);
    ("current_a"%string, vget (rb_phase_currents rolling_buffers) 0);
    ("current_b"%string, vget (rb_phase_currents rolling_buffers) 1);
    ("current_c"%string, vget (rb_phase_currents rolling_buffers) 2) ].

(** The loop over the columns: each cell, and a separator after every cell
    but the last; then the end of the line. *)
Fixpoint write_cells {A : Type} (write : A -> string) (cells : list A) : string :=
  match cells with
  | [] => newline
  | [c] => (write c ++ newline)%string
  | c :: rest => (write c ++ "," ++ write_cells write rest)%string
  end.

(** A read [a[row]] of an array. *)
Definition read (a : list Scalar) (row : nat) : Scalar := nth row a 0.

Definition to_csv (rolling_buffers : RollingBuffers) : string :=
  let fields := csv_fields rolling_buffers in
  let header := write_cells fst fields in
  let num_rows := get_rolling_buffer_count (rb_ctx rolling_buffers) in
  fold_left
    (fun ss row => (ss ++ write_cells (fun f : NamedField => show (read (snd f) row)) fields)%string)
    (seq 0 num_rows) header.

End Observers.

(** *** The random cogging torque map of [run_advanced_motor_config]

    The branch of the button "Generate Random Cogging Torque Map".  The
    twelve values drawn from the normal distribution are the input [draws];
    [size] is [cogging_torque_map.size()]. *)

Definition fourier_frequencies (p : Z) : list Z :=
  [1; p; p * 2 + 1; p * 3 + 2; p * 7 + 3; p * 10 + 4]%Z.

Definition fourier_frequencies_scale : list Scalar :=
  [1 / 2; 3 / 2; 1; 3 / 2; 1 / 2; 1 / 4].

Definition fourier_coeffs (draws : nat -> Scalar) : list Scalar :=
  map (fun i : nat => draws i * nth (i / 2) fourier_frequencies_scale 0) (seq 0 12).

(** The value the generation loop stores at index [i]. *)
Definition cogging_sample (coeffs : list Scalar) (p : Z) (size i : nat) : Scalar :=
  let progress := INR i / INR size in
  for_each 6 0 (fun n val =>
    let k1 := nth (2 * n) coeffs 0 in
    let k2 := nth (2 * n + 1) coeffs 0 in
    let c := cos (progress * 2 * kPI * IZR (nth n (fourier_frequencies p) 0%Z)) in
    let s := sin (progress * 2 * kPI * IZR (nth n (fourier_frequencies p) 0%Z)) in
    val + (k1 * c + k2 * s)) 0.

Definition generated_cogging_map (draws : nat -> Scalar) (p : Z) (size : nat) : list Scalar :=
  map (cogging_sample (fourier_coeffs draws) p size) (seq 0 size).

Definition max_abs_torque (cogging_torque_map : list Scalar) : Scalar :=
  fold_left (fun max_abs torque => Rmax max_abs (Rabs torque)) cogging_torque_map 0.

(** The rescaling [torque *= 0.01 / max_abs].  When [max_abs] is 0 the
    program divides by zero: the factor is infinite and every entry becomes
    NaN.  These are not real numbers, and the embedding has no map then. *)
Definition rescale (cogging_torque_map : list Scalar) : option (list Scalar) :=
  let max_abs := max_abs_torque cogging_torque_map in
  if Req_dec_T max_abs 0 then None
  else Some (map (fun torque => torque * (1 / 100 / max_abs)) cogging_torque_map).

Definition cogging_energy (cogging_torque_map : list Scalar) : Scalar :=
  fold_left Rplus cogging_torque_map 0 * (2 * kPI / INR (List.length cogging_torque_map)).

Definition energy_warning : string :=
  ("Energy conservation violated by cogging map" ++ newline)%string.

(** The sanity check of energy conservation: what it prints. *)
Definition energy_check (cogging_torque_map : list Scalar) : string :=
  if Rlt_dec (1 / 100000000) (Rabs (cogging_energy cogging_torque_map))
  then energy_warning
  else EmptyString.

(** The new map and the text printed. *)
Definition generate_random_cogging_torque_map (draws : nat -> Scalar) (p : Z)
    (cogging_torque_map : list Scalar) : option (list Scalar * string) :=
  let generated := generated_cogging_map draws p (List.length cogging_torque_map) in
  match rescale generated with
  | Some rescaled => Some (rescaled, energy_check rescaled)
  | None => None
  end.

(** *** What the specification says of the observers *)

(** The power a sample records: the bus voltage times the sum of the phase
    currents over the phases whose actual gate state is HIGH. *)
Definition spec_power_draw (board : BoardState) (motor : MotorState) : Scalar :=
  let contribution (n : nat) :=
    if (vget (actual (gate board)) n =? HIGH)%Z
    then vget (phase_currents (electrical motor)) n else 0 in
  bus_voltage board * (contribution 0%nat + contribution 1%nat + contribution 2%nat).

(** The values of the exported columns at one index of the arrays. *)
Definition csv_row_at (rolling_buffers : RollingBuffers) (idx : nat) : list Scalar :=
  [ read (rb_timestamps rolling_buffers) idx;
    read (rb_torque rolling_buffers) idx;
    read (vget (rb_bEmfs rolling_buffers) 0) idx;
    read (vget (rb_bEmfs rolling_buffers) 1) idx;
    read (vget (rb_bEmfs rolling_buffers) 2) idx;
    read (vget (rb_phase_currents rolling_buffers) 0) idx;
    read (vget (rb_phase_currents rolling_buffers) 1) idx;
    read (vget (rb_phase_currents rolling_buffers) 2) idx ].

(** The rows in the order [to_csv] writes them: by index, from 0. *)
Definition csv_rows (rolling_buffers : RollingBuffers) : list (list Scalar) :=
  map (csv_row_at rolling_buffers)
    (seq 0 (get_rolling_buffer_count (rb_ctx rolling_buffers))).

(** The rows in chronological order: from the oldest valid index, wrapping
    at the capacity. *)
Definition chronological_rows (rolling_buffers : RollingBuffers) : list (list Scalar) :=
  let c := rb_ctx rolling_buffers in
  map (fun k : nat =>
         csv_row_at rolling_buffers ((get_rolling_buffer_begin c + k) mod capacity c))
    (seq 0 (get_rolling_buffer_count c)).

Definition csv_header : string :=
  ("timestamp,torque,bEmf_a,bEmf_b,bEmf_c,current_a,current_b,current_c" ++ newline)%string.

(** A table written row by row, each row ended by a newline. *)
Fixpoint write_rows (show : Scalar -> string) (rows : list (list Scalar)) : string :=
  match rows with
  | [] => EmptyString
  | row :: rest => (write_cells show row ++ write_rows show rest)%string
  end.

(** Buffers of the given capacity that hold no sample. *)
Definition empty_buffers (n : nat) : RollingBuffers :=
  let a := repeat 0 n in
  let a3 := mkVec3 a a a in
  mkRollingBuffers (mkRollingBufferContext n 0 0) a a3 a3 a3 a3 a3 a a3 a a a a a a a a a.

(** A board with every gate LOW and a motor at rest that reports the torque
    [tau]; a controller at rest. *)
Definition quiet_board : BoardState :=
  mkBoardState 24 (mkGateState (mkVec3 false false false) (mkVec3 LOW LOW LOW) 0 0)
    (mkPwmState vzero 0 0).

Definition motor_with_torque (tau : Scalar) : MotorState :=
  mkMotorState (mkMotorParams 4 1 (1 / 1000) 1 (Simulator.mkVec5 (1 / 20) 0 0 0 0) [])
    (mkMotorKinematic 0 0 tau) (mkMotorElectrical vzero vzero vzero).

Definition quiet_foc : FocState := mkFocState (mkPiContext 0 0) (mkPiContext 0 0).

(** A board whose first gate is HIGH, second LOW and third OFF, with phase
    currents of 1, 2 and 3 A on a 24 V bus. *)
Definition driving_board : BoardState :=
  mkBoardState 24 (mkGateState (mkVec3 true false false) (mkVec3 HIGH LOW OFF) 0 0)
    (mkPwmState vzero 0 0).

Definition loaded_motor : MotorState :=
  mkMotorState (mkMotorParams 4 1 (1 / 1000) 1 (Simulator.mkVec5 (1 / 20) 0 0 0 0) [])
    (mkMotorKinematic 0 0 0) (mkMotorElectrical (mkVec3 1 2 3) vzero vzero).

(** The sum of the entries of a map. *)
Definition sum_list (l : list Scalar) : Scalar := fold_right Rplus 0 l.

(** Three samples, at times 1, 2 and 3, recorded into buffers of capacity 2. *)
Definition wrapped_buffers
    (get_pole_voltages : Scalar -> Vec3 Scalar -> GateState -> Vec3 Scalar)
    (get_phase_voltages : Vec3 Scalar -> Vec3 Scalar -> Vec3 Scalar) : RollingBuffers :=
  update_rolling_buffers get_pole_voltages get_phase_voltages 3 quiet_board
    (motor_with_torque 30) quiet_foc
    (update_rolling_buffers get_pole_voltages get_phase_voltages 2 quiet_board
       (motor_with_torque 20) quiet_foc
       (update_rolling_buffers get_pole_voltages get_phase_voltages 1 quiet_board
          (motor_with_torque 10) quiet_foc (empty_buffers 2))).

(** *** The rotor circle of [init_viz_data] *)

(** The two arrays of [VizData] that [init_viz_data] fills. *)
Record VizData : Type := mkVizData {
  circle_xs : list Scalar;
  circle_ys : list Scalar
}.

Definition init_viz_data (viz_data : VizData) : VizData :=
  let num_pts := List.length (circle_xs viz_data) in
  for_each num_pts 0 (fun i v =>
    let angle := INR i / IZR (Z.of_nat num_pts - 1) * 2 * kPI in
    mkVizData (<[i := cos angle]> (circle_xs v)) (<[i := sin angle]> (circle_ys v)))
    viz_data.

(** *** The rolling time window of the plots *)

Record RollingPlotParams : Type := mkRollingPlotParams {
  count : nat;
  begin : nat;
  begin_time : Scalar;
  end_time : Scalar
}.

Definition get_rolling_plot_params (buffers : RollingBuffers) (rolling_history : Scalar)
    : RollingPlotParams :=
  let count := get_rolling_buffer_count (rb_ctx buffers) in
  let begin := get_rolling_buffer_begin (rb_ctx buffers) in
  let times :=
    if negb (count =? 0)%nat
    then (read (rb_timestamps buffers) begin,
          read (rb_timestamps buffers) (get_rolling_buffer_back (rb_ctx buffers)))
    else (0, 0) in
  mkRollingPlotParams count begin
    (Rmax (fst times) (snd times - rolling_history)) (snd times).

(** *** The auto scroll of the plots *)

(** The three limits are [float] fields in the source; [implot_autoscroll_next_plot]
    only reads them, and every float is a real. *)
Record AutoScroller : Type := mkAutoScroller {
  last_y_min : Scalar;
  last_y_max : Scalar;
  last_y_range : Scalar;
  can_trigger_auto_scroll : bool
}.

(** [implot_autoscroll_next_plot]: the limits it hands to
    [ImPlot::SetNextPlotLimitsY], when it calls it, and the context it
    leaves. *)
Definition implot_autoscroll_next_plot (latest_data : Scalar) (ctx : AutoScroller)
    : option (Scalar * Scalar) * AutoScroller :=
  let limits :=
    if can_trigger_auto_scroll ctx then
      let range_adjust :=
        if Rlt_dec (last_y_range ctx) (1 / 100000) then 1 / 100000 else 0 in
      if Rlt_dec latest_data (last_y_min ctx)
      then Some (latest_data, latest_data + last_y_range ctx + range_adjust)
      else if Rlt_dec (last_y_max ctx) latest_data
      then Some (latest_data - last_y_range ctx - range_adjust, latest_data)
      else None
    else None in
  (limits,
   mkAutoScroller (last_y_min ctx) (last_y_max ctx) (last_y_range ctx)
     (negb (can_trigger_auto_scroll ctx))).

(** *** [order_of_magnitude_control] *)

(** [std::log10] and [std::pow(10, .)]. *)
Definition log10 (x : Scalar) : Scalar := ln x / ln 10.
Definition pow10 (y : Scalar) : Scalar := Rpower 10 y.

Section FloatNarrowing.

(** [fractional_part] and [base] are declared [float]: what is stored in them
    is narrowed from double to single precision.  The narrowing is the
    parameter [to_float]; the properties of rounding that a theorem needs are
    its hypotheses. *)
Variable to_float : Scalar -> Scalar.

(** [while (fractional_part < 0) { --integral_part; ++fractional_part; }],
    with a bound on the number of rounds; the increment is stored in a
    float. *)
Fixpoint normalize_fraction (fuel : nat) (integral_part : Z) (fractional_part : Scalar)
    : option (Z * Scalar) :=
  if Rlt_dec fractional_part 0 then
    match fuel with
    | O => None
    | S fuel' =>
        normalize_fraction fuel' (integral_part - 1) (to_float (fractional_part + 1))
    end
  else Some (integral_part, fractional_part).

(** The mantissa and the exponent that the control displays for a value. *)
Definition mantissa_exponent (fuel : nat) (controllee : Scalar) : option (Scalar * Z) :=
  let l10 := log10 controllee in
  let integral_part := Rtrunc l10 in
  let fractional_part := to_float (l10 - IZR integral_part) in
  match normalize_fraction fuel integral_part fractional_part with
  | Some (integral_part, fractional_part) =>
      Some (to_float (pow10 fractional_part), integral_part)
  | None => None
  end.

(** The control: [sliders] is what the two sliders do to the mantissa, a
    float, and to the exponent, with whether the user interacted.  The result
    is the new value of the controllee and the value returned. *)
Definition order_of_magnitude_control (sliders : Scalar * Z -> Scalar * Z * bool)
    (fuel : nat) (controllee : Scalar) : option (Scalar * bool) :=
  match mantissa_exponent fuel controllee with
  | Some shown =>
      let '(base, integral_part, interacted) := sliders shown in
      Some (base * pow10 (IZR integral_part), interacted)
  | None => None
  end.

End FloatNarrowing.

(** *** The back EMF coefficients in [run_advanced_motor_config] *)

Definition vec5_get (v : Simulator.Vec5) (i : nat) : Scalar :=
  match i with
  | O => Simulator.c1 v
  | 1%nat => Simulator.c3 v
  | 2%nat => Simulator.c5 v
  | 3%nat => Simulator.c7 v
  | _ => Simulator.c9 v
  end.

Definition vec5_set (v : Simulator.Vec5) (i : nat) (x : Scalar) : Simulator.Vec5 :=
  match i with
  | O => Simulator.mkVec5 x (Simulator.c3 v) (Simulator.c5 v) (Simulator.c7 v) (Simulator.c9 v)
  | 1%nat => Simulator.mkVec5 (Simulator.c1 v) x (Simulator.c5 v) (Simulator.c7 v) (Simulator.c9 v)
  | 2%nat => Simulator.mkVec5 (Simulator.c1 v) (Simulator.c3 v) x (Simulator.c7 v) (Simulator.c9 v)
  | 3%nat => Simulator.mkVec5 (Simulator.c1 v) (Simulator.c3 v) (Simulator.c5 v) x (Simulator.c9 v)
  | _ => Simulator.mkVec5 (Simulator.c1 v) (Simulator.c3 v) (Simulator.c5 v) (Simulator.c7 v) x
  end.

(** The harmonics as ratios to the fundamental, and back. *)
Definition to_gui_scale (v : Simulator.Vec5) : Simulator.Vec5 :=
  for_each 4 1 (fun i out => vec5_set out i (vec5_get out i / vec5_get v 0)) v.

Definition from_gui_scale (v : Simulator.Vec5) : Simulator.Vec5 :=
  for_each 4 1 (fun i out => vec5_set out i (vec5_get out i * vec5_get v 0)) v.

(** *** Recording and exporting *)

(** What one call of [update_rolling_buffers] is given. *)
Definition Sample : Type := Scalar * BoardState * MotorState * FocState.

(** The row of the export that a sample gives. *)
Definition sample_row (s : Sample) : list Scalar :=
  let '(time, _, motor, _) := s in
  [ time; torque (kinematic motor);
    vget (bEmfs (electrical motor)) 0; vget (bEmfs (electrical motor)) 1;
    vget (bEmfs (electrical motor)) 2;
    vget (phase_currents (electrical motor)) 0; vget (phase_currents (electrical motor)) 1;
    vget (phase_currents (electrical motor)) 2 ].

(** The calls of [update_rolling_buffers] for a run of samples, in turn. *)
Definition record_samples
    (get_pole_voltages : Scalar -> Vec3 Scalar -> GateState -> Vec3 Scalar)
    (get_phase_voltages : Vec3 Scalar -> Vec3 Scalar -> Vec3 Scalar)
    (samples : list Sample) (buffers : RollingBuffers) : RollingBuffers :=
  fold_left
    (fun b (s : Sample) =>
       let '(time, board, motor, foc) := s in
       update_rolling_buffers get_pole_voltages get_phase_voltages time board motor foc b)
    samples buffers.

End Gui.

(** ** Properties of [fmod] *)

Lemma Rtrunc_small (r : R) : -1 < r < 1 -> Rtrunc r = 0%Z.
Proof.
  intros [Hlo Hhi]. unfold Rtrunc.
  destruct (Rle_dec 0 r) as [Hr|Hr].
  - symmetry. apply Int_part_spec. simpl. lra.
  - assert (H : 0%Z = Int_part (- r)) by (apply Int_part_spec; simpl; lra).
    rewrite <- H. reflexivity.
Qed.

(** A dividend smaller in magnitude than the divisor is returned as it is,
    with its sign. *)
Lemma fmod_small (x y : R) : 0 < y -> - y < x < y -> fmod x y = x.
Proof.
  intros Hy [Hlo Hhi]. unfold fmod.
  rewrite Rtrunc_small.
  - simpl. ring.
  - split; apply Rmult_lt_reg_r with y; try exact Hy;
      unfold Rdiv; rewrite Rmult_assoc, Rinv_l by lra; lra.
Qed.

(** A dividend that is not negative is wrapped into [0, y). *)
Lemma fmod_nonneg (x y : R) : 0 < y -> 0 <= x -> 0 <= fmod x y < y.
Proof.
  intros Hy Hx. unfold fmod, Rtrunc.
  assert (Hq : 0 <= x / y).
  { apply Rmult_le_pos; [exact Hx|left; apply Rinv_0_lt_compat; exact Hy]. }
  destruct (Rle_dec 0 (x / y)) as [_|Hn]; [|contradiction].
  destruct (base_Int_part (x / y)) as [H1 H2].
  set (k := IZR (Int_part (x / y))) in *.
  assert (Hxy : x = x / y * y) by (field; lra).
  split; nra.
Qed.

(** A negative dividend is wrapped into (-y, 0]. *)
Lemma fmod_neg (x y : R) : 0 < y -> x < 0 -> - y < fmod x y <= 0.
Proof.
  intros Hy Hx. unfold fmod, Rtrunc.
  assert (Hq : x / y < 0).
  { unfold Rdiv. pose proof (Rinv_0_lt_compat y Hy). nra. }
  destruct (Rle_dec 0 (x / y)) as [Hn|_]; [lra|].
  destruct (base_Int_part (- (x / y))) as [H1 H2].
  rewrite opp_IZR.
  set (k := IZR (Int_part (- (x / y)))) in *.
  assert (Hxy : x = x / y * y) by (field; lra).
  split; nra.
Qed.

(** ** Properties of the integrator step and of the host loop *)

Module SimulatorFacts.
Import Simulator.

(** Evaluates the assignments of [step_body] field by field. *)
Ltac step_fields :=
  cbv [step_body for_each
       set_time set_i_coils set_v_poles set_bEmfs set_v_neutral set_v_phases set_torque
       set_angular_accel_rotor set_angular_vel_rotor set_angle_rotor set_angle_electrical
       time switches i_coils v_poles bEmfs v_neutral v_phases torque
       angular_accel_rotor angular_vel_rotor angle_rotor angle_electrical].

Lemma vget_vset_same {A} (v : Vec3 A) (n : nat) (x : A) : vget (vset v n x) n = x.
Proof. destruct n as [|[|n]]; reflexivity. Qed.

Lemma vset_vset_same {A} (v : Vec3 A) (n : nat) (x y : A) :
  vset (vset v n x) n y = vset v n y.
Proof. destruct n as [|[|n]]; reflexivity. Qed.

(** The switch statement stores [pole_voltage] for a switch value it has a
    case for, and changes nothing else. *)
Lemma apply_pole_voltage_valid (params : SimParams) (n : nat) (state : SimState) :
  valid_switch (vget (switches state) n) ->
  apply_pole_voltage params n state =
  Completed (set_v_poles
               (vset (v_poles state) n
                  (pole_voltage params (vget (switches state) n) (vget (i_coils state) n)))
               state).
Proof.
  intros Hsw. unfold apply_pole_voltage, pole_voltage.
  destruct (Z.eqb_spec (vget (switches state) n) OFF) as [Hoff|Hoff].
  - destruct (Rlt_dec 0 (vget (i_coils state) n)); cbn [i_coils set_v_poles v_poles];
      destruct (Rlt_dec (i_diode_active params) (Rabs (vget (i_coils state) n)));
      cbn [i_coils set_v_poles v_poles];
      rewrite ?vget_vset_same, ?vset_vset_same; reflexivity.
  - destruct (Z.eqb_spec (vget (switches state) n) HIGH) as [Hhigh|Hhigh]; [reflexivity|].
    destruct (Z.eqb_spec (vget (switches state) n) LOW) as [Hlow|Hlow]; [reflexivity|].
    destruct Hsw as [H|[H|H]]; contradiction.
Qed.

(** A switch value without a case terminates the process. *)
Lemma apply_pole_voltage_invalid (params : SimParams) (n : nat) (state : SimState) :
  ~ valid_switch (vget (switches state) n) ->
  apply_pole_voltage params n state = Exited "Unhandled switch case!" (-1).
Proof.
  intros Hsw. unfold apply_pole_voltage.
  destruct (Z.eqb_spec (vget (switches state) n) OFF) as [Hoff|Hoff].
  { exfalso; apply Hsw; right; right; exact Hoff. }
  destruct (Z.eqb_spec (vget (switches state) n) HIGH) as [Hhigh|Hhigh].
  { exfalso; apply Hsw; right; left; exact Hhigh. }
  destruct (Z.eqb_spec (vget (switches state) n) LOW) as [Hlow|Hlow].
  { exfalso; apply Hsw; left; exact Hlow. }
  reflexivity.
Qed.

Lemma pole_loop_valid (params : SimParams) (state : SimState) :
  valid_switches state ->
  for_range 3 0 (apply_pole_voltage params) state =
  Completed (set_v_poles (applied_poles params state) state).
Proof.
  intros Hv. cbn [for_range].
  rewrite apply_pole_voltage_valid by (apply Hv; lia).
  rewrite apply_pole_voltage_valid by (apply (Hv 1%nat); lia).
  rewrite apply_pole_voltage_valid by (apply (Hv 2%nat); lia).
  reflexivity.
Qed.

(** On valid switch values the step returns, and its result is the rest of
    the function applied to the state with the time advanced and the pole
    voltages stored. *)
Lemma step_valid (params : SimParams) (state : SimState) :
  valid_switches state ->
  step params state =
  Completed (step_body params
               (set_v_poles (applied_poles params state)
                  (set_time (time state + dt params) state))).
Proof.
  intros Hv. unfold step.
  rewrite pole_loop_valid by exact Hv. reflexivity.
Qed.

Lemma v_poles_step_body (params : SimParams) (state : SimState) :
  v_poles (step_body params state) = v_poles state.
Proof. step_fields. reflexivity. Qed.

Lemma vget_applied_poles (params : SimParams) (state : SimState) (n : nat) :
  (n < 3)%nat ->
  vget (applied_poles params state) n =
  pole_voltage params (vget (switches state) n) (vget (i_coils state) n).
Proof.
  intros _. destruct n as [|[|[|n]]]; reflexivity.
Qed.

(** The pole voltage of a phase after a step that returns. *)
Lemma step_pole_voltage (params : SimParams) (state : SimState) (n : nat) :
  valid_switches state -> (n < 3)%nat ->
  exists state',
    step params state = Completed state' /\
    vget (v_poles state') n =
    pole_voltage params (vget (switches state) n) (vget (i_coils state) n).
Proof.
  intros Hv Hn. eexists. split; [apply step_valid; exact Hv|].
  rewrite v_poles_step_body. cbn [v_poles set_v_poles].
  apply vget_applied_poles; exact Hn.
Qed.

(** What the code does for a gate that is OFF: the rail is 0 for a positive
    current and the bus voltage otherwise, and above the threshold the diode
    voltage is subtracted from either rail. *)
Lemma pole_voltage_off (params : SimParams) (i : Scalar) :
  (i_diode_active params < Rabs i -> 0 < i ->
     pole_voltage params OFF i = - v_diode_active params) /\
  (i_diode_active params < Rabs i -> i <= 0 ->
     pole_voltage params OFF i = bus_voltage params - v_diode_active params) /\
  (Rabs i <= i_diode_active params ->
     pole_voltage params OFF i = if Rlt_dec 0 i then 0 else bus_voltage params).
Proof.
  unfold pole_voltage. cbn [Z.eqb OFF Pos.eqb].
  destruct (Rlt_dec 0 i) as [Hpos|Hpos];
    destruct (Rlt_dec (i_diode_active params) (Rabs i)) as [Hact|Hact];
    repeat split; intros; try reflexivity; try lra.
Qed.

Lemma freewheel_state_valid : valid_switches freewheel_state.
Proof.
  intros n Hn. unfold valid_switch.
  destruct n as [|[|[|n]]]; cbn; [right; right| left | right; left | lia]; reflexivity.
Qed.

(** C1 (the code departs from it): for a gate that is OFF and a negative phase
    current above the diode-active threshold, the step stores the bus voltage
    MINUS the diode voltage.  With a current of -1 A, a bus of 24 V and a diode
    voltage of 1 V the stored pole voltage is 23 V, where diode freewheeling
    through the high-side diode gives 24 + 1 = 25 V. *)
Theorem step_off_negative_current_pole :
  exists state',
    step freewheel_params freewheel_state = Completed state' /\
    vget (v_poles state') 0 = 23 /\
    spec_freewheel_voltage (bus_voltage freewheel_params)
      (v_diode_active freewheel_params) (vget (i_coils freewheel_state) 0) = 25.
Proof.
  destruct (step_pole_voltage freewheel_params freewheel_state 0
              freewheel_state_valid) as (state' & Hstep & Hpole); [lia|].
  exists state'. split; [exact Hstep|]. split.
  - rewrite Hpole. cbn [vget switches i_coils freewheel_state v0].
    destruct (pole_voltage_off freewheel_params (-1)) as (_ & Hneg & _).
    rewrite Hneg; cbn [freewheel_params i_diode_active bus_voltage v_diode_active].
    + lra.
    + rewrite Rabs_left by lra. lra.
    + lra.
  - unfold spec_freewheel_voltage. cbn.
    destruct (Rlt_dec 0 (-1)); lra.
Qed.

(** The dot product of the sine samples with the coefficients is the
    specification's odd-harmonic series. *)
Lemma get_back_emf_spec (a : Vec5) (theta : Scalar) :
  get_back_emf a theta = spec_normed_bEmf a theta.
Proof.
  unfold get_back_emf, spec_normed_bEmf, dot5, vec5_of_list, generate_odd_sine_series.
  cbn [map seq nth c1 c3 c5 c7 c9 Nat.mul Nat.add].
  replace (INR 1 * theta) with theta by (simpl; ring).
  replace (INR 3 * theta) with (3 * theta) by (simpl; ring).
  replace (INR 5 * theta) with (5 * theta) by (simpl; ring).
  replace (INR 7 * theta) with (7 * theta) by (simpl; ring).
  replace (INR 9 * theta) with (9 * theta) by (simpl; ring).
  ring.
Qed.

Lemma vget_compute_normalized_bEmfs (params : SimParams) (state : SimState) (n : nat) :
  (n < 3)%nat ->
  vget (compute_normalized_bEmfs params state) n =
  spec_normed_bEmf (normalized_bEmf_coeffs params) (angle_electrical state + phase_offset n).
Proof.
  intros Hn. unfold compute_normalized_bEmfs.
  destruct n as [|[|[|n]]]; [| | |lia]; cbn [vget v0 v1 v2 phase_offset];
    rewrite get_back_emf_spec; unfold kPI; f_equal; ring.
Qed.

Lemma valid_switch_dec (sw : Z) : {valid_switch sw} + {~ valid_switch sw}.
Proof.
  unfold valid_switch.
  destruct (Z.eq_dec sw LOW); [left; tauto|].
  destruct (Z.eq_dec sw HIGH); [left; tauto|].
  destruct (Z.eq_dec sw OFF); [left; tauto|].
  right; tauto.
Defined.

Lemma pole_loop_invalid (params : SimParams) (state : SimState) :
  (exists n, (n < 3)%nat /\ ~ valid_switch (vget (switches state) n)) ->
  for_range 3 0 (apply_pole_voltage params) state = Exited "Unhandled switch case!" (-1).
Proof.
  intros (n & Hn & Hbad). cbn [for_range].
  destruct (valid_switch_dec (vget (switches state) 0)) as [H0|H0];
    [rewrite apply_pole_voltage_valid by exact H0
    |rewrite apply_pole_voltage_invalid by exact H0; reflexivity].
  destruct (valid_switch_dec (vget (switches state) 1)) as [H1|H1];
    [rewrite apply_pole_voltage_valid by exact H1
    |rewrite apply_pole_voltage_invalid by exact H1; reflexivity].
  destruct (valid_switch_dec (vget (switches state) 2)) as [H2|H2];
    [|rewrite apply_pole_voltage_invalid by exact H2; reflexivity].
  exfalso. destruct n as [|[|[|n]]]; [tauto|tauto|tauto|lia].
Qed.

(** A step that returns started from valid switch values. *)
Lemma step_completed_valid (params : SimParams) (state state' : SimState) :
  step params state = Completed state' -> valid_switches state.
Proof.
  intros Hstep n Hn.
  destruct (valid_switch_dec (vget (switches state) n)) as [Hv|Hbad]; [exact Hv|].
  unfold step in Hstep.
  rewrite (pole_loop_invalid params (set_time (time state + dt params) state)) in Hstep.
  - discriminate Hstep.
  - exists n. split; [exact Hn|exact Hbad].
Qed.

(** C2: one integrator step computes the electrical update as the
    specification has it, for every initial state and every phase.  The step
    returns on every state with valid switch values, and whenever it returns:
    the back EMF of each phase is the normed back EMF at the electrical angle
    shifted by 0, +2 pi/3 and -2 pi/3, times the angular velocity; the neutral
    voltage is the sum of the pole voltages minus the sum of the back EMFs,
    over 3; each phase voltage is the pole voltage minus the neutral voltage;
    and each current is advanced by one explicit Euler step of
    (v_phase - bEmf - R i) / L. *)
Theorem step_electrical_update (params : SimParams) (state : SimState) :
  (valid_switches state -> exists state', step params state = Completed state') /\
  (forall state',
     step params state = Completed state' ->
     (forall n, (n < 3)%nat ->
        vget (bEmfs state') n =
        spec_bEmf params (angle_electrical state) (angular_vel_rotor state) n) /\
     v_neutral state' = spec_v_neutral (vget (v_poles state')) (vget (bEmfs state')) /\
     (forall n, (n < 3)%nat ->
        vget (v_phases state') n = vget (v_poles state') n - v_neutral state') /\
     (forall n, (n < 3)%nat ->
        vget (i_coils state') n =
        vget (i_coils state) n
        + spec_di_dt params (vget (v_phases state') n) (vget (bEmfs state') n)
            (vget (i_coils state) n) * dt params)).
Proof.
  split.
  { intros Hv. eexists. apply step_valid. exact Hv. }
  intros state' Hstep.
  pose proof (step_completed_valid params state state' Hstep) as Hv.
  rewrite (step_valid params state Hv) in Hstep.
  injection Hstep as <-.
  set (s1 := set_v_poles (applied_poles params state)
               (set_time (time state + dt params) state)).
  assert (Hb : forall n, (n < 3)%nat ->
            vget (bEmfs (step_body params s1)) n =
            spec_bEmf params (angle_electrical state) (angular_vel_rotor state) n).
  { intros n Hn. unfold spec_bEmf.
    change (angle_electrical state) with (angle_electrical s1).
    rewrite <- (vget_compute_normalized_bEmfs params s1 n Hn).
    destruct n as [|[|[|n]]]; [reflexivity|reflexivity|reflexivity|lia]. }
  split; [exact Hb|]. split; [reflexivity|]. split.
  - intros n Hn. destruct n as [|[|[|n]]]; [reflexivity|reflexivity|reflexivity|lia].
  - intros n Hn. unfold spec_di_dt.
    destruct n as [|[|[|n]]]; [| | |lia];
      cbn [step_body for_each vget vset vadd vscale vzero v0 v1 v2
           i_coils set_i_coils set_torque set_angular_accel_rotor
           set_angular_vel_rotor set_angle_rotor set_angle_electrical
           set_v_phases set_v_neutral set_bEmfs set_v_poles set_time
           v_phases bEmfs v_poles v_neutral s1];
      f_equal; f_equal; f_equal; ring.
Qed.

Lemma step_electrical_update_witness :
  valid_switches freewheel_state /\
  exists state',
    step freewheel_params freewheel_state = Completed state' /\
    v_neutral state' = spec_v_neutral (vget (v_poles state')) (vget (bEmfs state')).
Proof.
  split; [exact freewheel_state_valid|].
  destruct (step_electrical_update freewheel_params freewheel_state) as [Htotal Hupdate].
  destruct (Htotal freewheel_state_valid) as (state' & Hstep).
  exists state'. split; [exact Hstep|].
  exact (proj1 (proj2 (Hupdate state' Hstep))).
Defined.

(** The torque a step stores, in terms of the state its body starts from. *)
Lemma torque_step_body (params : SimParams) (state : SimState) :
  torque (step_body params state) =
  vdot (i_coils (step_body params state)) (compute_normalized_bEmfs params state).
Proof. step_fields. reflexivity. Qed.

(** C3 (amended): on every state with valid switch values the step returns,
    and the torque it stores is the electromagnetic torque alone: the sum over
    the phases of the updated current times the normed back EMF of the phase at
    the electrical angle the step started from.  No cogging torque is added and
    no load torque is subtracted. *)
Theorem step_torque_electromagnetic (params : SimParams) (state : SimState) :
  valid_switches state ->
  exists state',
    step params state = Completed state' /\
    torque state' = spec_em_torque params (i_coils state') (angle_electrical state).
Proof.
  intros Hv. eexists. split; [apply step_valid; exact Hv|].
  set (s1 := set_v_poles (applied_poles params state)
               (set_time (time state + dt params) state)).
  rewrite torque_step_body. unfold vdot, spec_em_torque.
  change (angle_electrical state) with (angle_electrical s1).
  rewrite <- !vget_compute_normalized_bEmfs by lia.
  reflexivity.
Qed.

Lemma rest_state_valid : valid_switches rest_state.
Proof.
  intros n Hn. left. destruct n as [|[|[|n]]]; reflexivity.
Qed.

Lemma step_torque_electromagnetic_witness :
  exists state',
    step freewheel_params freewheel_state = Completed state' /\
    torque state' =
    spec_em_torque freewheel_params (i_coils state') (angle_electrical freewheel_state).
Proof.
  exact (step_torque_electromagnetic freewheel_params freewheel_state freewheel_state_valid).
Defined.

Lemma vec3_ext {A} (a b : Vec3 A) :
  (forall n, (n < 3)%nat -> vget a n = vget b n) -> a = b.
Proof.
  intros H. destruct a as [a0 a1 a2], b as [b0 b1 b2].
  pose proof (H 0%nat ltac:(lia)) as H0.
  pose proof (H 1%nat ltac:(lia)) as H1.
  pose proof (H 2%nat ltac:(lia)) as H2.
  cbn in H0, H1, H2. congruence.
Qed.

(** The currents a step stores, in terms of the state its body starts from. *)
Lemma i_coils_step_body (params : SimParams) (state : SimState) (n : nat) :
  (n < 3)%nat ->
  let bEmf := vscale (compute_normalized_bEmfs params state) (angular_vel_rotor state) in
  let v_n := (vsum (v_poles state) - vsum bEmf) / 3 in
  vget (i_coils (step_body params state)) n =
  vget (i_coils state) n
  + (vget (v_poles state) n - v_n - vget bEmf n
     - vget (i_coils state) n * phase_resistance params)
    / phase_inductance params * dt params.
Proof.
  intros Hn. destruct n as [|[|[|n]]]; [reflexivity|reflexivity|reflexivity|lia].
Qed.

(** The freewheel example, step by step: the pole voltages, the normalized
    back EMFs at the electrical angle 0, and the currents after the step. *)
Lemma freewheel_poles :
  applied_poles freewheel_params freewheel_state = mkVec3 23 0 24.
Proof.
  unfold applied_poles. cbn [switches i_coils freewheel_state vget v0 v1 v2].
  destruct (pole_voltage_off freewheel_params (-1)) as (_ & Hneg & _).
  f_equal.
  rewrite Hneg; cbn [freewheel_params i_diode_active bus_voltage v_diode_active].
  - lra.
  - rewrite Rabs_left by lra. lra.
  - lra.
Qed.

Lemma freewheel_normed_bEmfs (state : SimState) :
  angle_electrical state = 0 ->
  compute_normalized_bEmfs freewheel_params state =
  mkVec3 0 (sqrt 3 / 40) (- (sqrt 3 / 40)).
Proof.
  intros Hangle. apply vec3_ext. intros n Hn.
  rewrite vget_compute_normalized_bEmfs by exact Hn.
  unfold spec_normed_bEmf. rewrite Hangle.
  cbn [normalized_bEmf_coeffs freewheel_params c1 c3 c5 c7 c9].
  destruct n as [|[|[|n]]]; [| | |lia]; cbn [phase_offset vget v0 v1 v2].
  - replace (0 + 0) with 0 by ring. rewrite sin_0. ring.
  - replace (0 + 2 * PI / 3) with (2 * (PI / 3)) by field.
    rewrite sin_2PI3. field.
  - replace (0 + - (2 * PI / 3)) with (- (2 * (PI / 3))) by field.
    rewrite sin_antisym, sin_2PI3. field.
Qed.

Lemma freewheel_currents :
  i_coils (step_body freewheel_params
             (set_v_poles (applied_poles freewheel_params freewheel_state)
                (set_time (time freewheel_state + dt freewheel_params) freewheel_state))) =
  mkVec3 (-1 + 25 / 3000) (- (47 / 3000)) (1 + 22 / 3000).
Proof.
  apply vec3_ext. intros n Hn.
  rewrite i_coils_step_body by exact Hn. cbv zeta.
  rewrite freewheel_normed_bEmfs by reflexivity.
  cbn [v_poles set_v_poles i_coils set_time angular_vel_rotor freewheel_state].
  rewrite freewheel_poles. unfold vsum, vscale.
  cbn [phase_resistance phase_inductance dt freewheel_params].
  destruct n as [|[|[|n]]]; [| | |lia]; cbn [vget v0 v1 v2]; field.
Qed.

(** C3 (as stated, refuted): in the freewheel example, with currents of
    -1, 0 and 1 A, no cogging torque and a load torque of 1 N m, the step stores
    the electromagnetic torque, -(1023/40000) sqrt 3 N m, which is not zero,
    where the claimed total torque is that torque minus 1. *)
Lemma step_torque_ignores_load :
  exists state',
    step freewheel_params freewheel_state = Completed state' /\
    torque state' = - (1023 / 40000) * sqrt 3 /\
    torque state' < 0 /\
    spec_total_torque freewheel_params (fun _ => 0) 1 (i_coils state')
      (angle_electrical freewheel_state) (angle_rotor freewheel_state)
    = - (1023 / 40000) * sqrt 3 - 1.
Proof.
  eexists. split; [apply step_valid; exact freewheel_state_valid|].
  set (s1 := set_v_poles (applied_poles freewheel_params freewheel_state)
               (set_time (time freewheel_state + dt freewheel_params) freewheel_state)).
  assert (Hnb : compute_normalized_bEmfs freewheel_params s1 =
                mkVec3 0 (sqrt 3 / 40) (- (sqrt 3 / 40)))
    by (apply freewheel_normed_bEmfs; reflexivity).
  assert (Hs3 : 0 < sqrt 3) by (apply sqrt_lt_R0; lra).
  assert (Ht : torque (step_body freewheel_params s1) = - (1023 / 40000) * sqrt 3).
  { rewrite torque_step_body. unfold s1 at 1. rewrite freewheel_currents, Hnb.
    unfold vdot. cbn [v0 v1 v2]. field. }
  split; [exact Ht|]. split; [rewrite Ht; nra|].
  unfold spec_total_torque, spec_em_torque.
  change (angle_electrical freewheel_state) with (angle_electrical s1).
  rewrite <- !vget_compute_normalized_bEmfs by lia.
  unfold s1 at 1 3 5. rewrite freewheel_currents, Hnb.
  cbn [vget v0 v1 v2]. field.
Qed.

(** The rotor update of a step, in terms of the state its body starts from. *)
Lemma angular_vel_step_body (params : SimParams) (state : SimState) :
  angular_vel_rotor (step_body params state) =
  angular_vel_rotor state
  + torque (step_body params state) / inertia_rotor params * dt params.
Proof. step_fields. reflexivity. Qed.

Lemma angle_rotor_step_body (params : SimParams) (state : SimState) :
  angle_rotor (step_body params state) =
  fmod (angle_rotor state + angular_vel_rotor (step_body params state) * dt params)
    (2 * kPI).
Proof. step_fields. reflexivity. Qed.

Lemma angle_electrical_step_body (params : SimParams) (state : SimState) :
  angle_electrical (step_body params state) =
  fmod (angle_rotor (step_body params state) * IZR (num_pole_pairs params)) (2 * kPI).
Proof. step_fields. reflexivity. Qed.

(** When the angle before wrapping is not negative, both angles end in
    [0, 2 pi). *)
Lemma step_body_angles_wrapped (params : SimParams) (state : SimState) :
  0 <= angle_rotor state + angular_vel_rotor (step_body params state) * dt params ->
  (0 <= num_pole_pairs params)%Z ->
  0 <= angle_rotor (step_body params state) < 2 * PI /\
  0 <= angle_electrical (step_body params state) < 2 * PI.
Proof.
  intros Hpos Hpp.
  assert (H2pi : 0 < 2 * kPI) by (unfold kPI; pose proof PI_RGT_0; lra).
  assert (Hrot : 0 <= angle_rotor (step_body params state) < 2 * PI).
  { rewrite angle_rotor_step_body. apply (fmod_nonneg _ _ H2pi Hpos). }
  split; [exact Hrot|].
  rewrite angle_electrical_step_body. apply (fmod_nonneg _ _ H2pi).
  apply Rmult_le_pos; [apply Hrot|apply IZR_le; exact Hpp].
Qed.

Lemma reverse_state_valid : valid_switches reverse_state.
Proof.
  intros n Hn. left. destruct n as [|[|[|n]]]; reflexivity.
Qed.

Lemma freewheel_normed_bEmf_bound (state : SimState) (n : nat) :
  (n < 3)%nat ->
  -1 / 20 <= vget (compute_normalized_bEmfs freewheel_params state) n <= 1 / 20.
Proof.
  intros Hn. rewrite vget_compute_normalized_bEmfs by exact Hn.
  unfold spec_normed_bEmf. cbn [normalized_bEmf_coeffs freewheel_params c1 c3 c5 c7 c9].
  pose proof (SIN_bound (angle_electrical state + phase_offset n)) as [Hlo Hhi].
  lra.
Qed.

(** C4 (the code departs from it): a rotor turning backwards leaves [0, 2 pi).
    From angle 0 with an angular velocity of -1 rad/s, one step of 1 us stores a
    rotor angle and an electrical angle that are both negative: [fmod] keeps
    the sign of its dividend. *)
Theorem step_negative_velocity_angles :
  exists state',
    step freewheel_params reverse_state = Completed state' /\
    angle_rotor state' < 0 /\
    angle_electrical state' < 0 /\
    angle_electrical state' =
    fmod (IZR (num_pole_pairs freewheel_params) * angle_rotor state') (2 * PI).
Proof.
  eexists. split; [apply step_valid; exact reverse_state_valid|].
  set (s1 := set_v_poles (applied_poles freewheel_params reverse_state)
               (set_time (time reverse_state + dt freewheel_params) reverse_state)).
  pose proof (freewheel_normed_bEmf_bound s1 0 ltac:(lia)) as Hx.
  pose proof (freewheel_normed_bEmf_bound s1 1 ltac:(lia)) as Hy.
  pose proof (freewheel_normed_bEmf_bound s1 2 ltac:(lia)) as Hz.
  pose proof (i_coils_step_body freewheel_params s1 0 ltac:(lia)) as Hi0.
  pose proof (i_coils_step_body freewheel_params s1 1 ltac:(lia)) as Hi1.
  pose proof (i_coils_step_body freewheel_params s1 2 ltac:(lia)) as Hi2.
  pose proof (torque_step_body freewheel_params s1) as Ht.
  pose proof (angular_vel_step_body freewheel_params s1) as Hw.
  pose proof (angle_rotor_step_body freewheel_params s1) as Ha.
  pose proof (angle_electrical_step_body freewheel_params s1) as He.
  unfold vdot in Ht.
  cbn [vget] in Hx, Hy, Hz, Hi0, Hi1, Hi2.
  set (nb := compute_normalized_bEmfs freewheel_params s1) in *.
  cbv zeta in Hi0, Hi1, Hi2.
  unfold vsum, vscale in Hi0, Hi1, Hi2.
  cbn [v0 v1 v2 v_poles i_coils angular_vel_rotor angle_rotor s1 set_v_poles set_time
       reverse_state applied_poles switches vget vzero
       phase_resistance phase_inductance dt inertia_rotor num_pole_pairs freewheel_params]
    in Hi0, Hi1, Hi2, Hw, Ha, He.
  unfold pole_voltage in Hi0, Hi1, Hi2. cbn [Z.eqb LOW OFF HIGH] in Hi0, Hi1, Hi2.
  set (st := step_body freewheel_params s1) in *.
  set (x := v0 nb) in *. set (y := v1 nb) in *. set (z := v2 nb) in *.
  assert (Hpi : 3 < PI) by (pose proof PI2_3_2; lra).
  assert (Hx0 : v0 (i_coils st) = (x - (x + y + z) / 3) / 1000) by (rewrite Hi0; field).
  assert (Hy0 : v1 (i_coils st) = (y - (x + y + z) / 3) / 1000) by (rewrite Hi1; field).
  assert (Hz0 : v2 (i_coils st) = (z - (x + y + z) / 3) / 1000) by (rewrite Hi2; field).
  rewrite Hx0, Hy0, Hz0 in Ht.
  assert (Htb : -1 <= torque st <= 1) by (rewrite Ht; split; nra).
  assert (Hpre : -1 / 500000 <= 0 + angular_vel_rotor st * (1 / 1000000) < 0)
    by (rewrite Hw; split; nra).
  assert (Harot : angle_rotor st = 0 + angular_vel_rotor st * (1 / 1000000)).
  { rewrite Ha. apply fmod_small; unfold kPI; lra. }
  assert (Haele : angle_electrical st = angle_rotor st * 4).
  { rewrite He. apply fmod_small; unfold kPI; lra. }
  split; [lra|]. split; [lra|].
  rewrite He. unfold kPI. cbn [num_pole_pairs freewheel_params]. f_equal. ring.
Qed.

(** *** Totality of the step *)

(** C6: the step is total on valid gate states.  When every phase's switch
    value is LOW, HIGH or OFF the step returns; when some phase's switch value
    is none of them the step writes the diagnostic "Unhandled switch case!"
    and terminates the program with exit code -1. *)
Theorem step_total_on_valid_switches (params : SimParams) (state : SimState) :
  (valid_switches state -> exists state', step params state = Completed state') /\
  ((exists n, (n < 3)%nat /\ ~ valid_switch (vget (switches state) n)) ->
   step params state = Exited "Unhandled switch case!" (-1)).
Proof.
  split.
  - intros Hv. eexists. apply step_valid. exact Hv.
  - intros Hbad. unfold step.
    rewrite (pole_loop_invalid params (set_time (time state + dt params) state) Hbad).
    reflexivity.
Qed.

Lemma step_total_on_valid_switches_witness :
  (exists state', step freewheel_params rest_state = Completed state') /\
  step freewheel_params stuck_state = Exited "Unhandled switch case!" (-1).
Proof.
  split.
  - apply (proj1 (step_total_on_valid_switches freewheel_params rest_state)).
    exact rest_state_valid.
  - apply (proj2 (step_total_on_valid_switches freewheel_params stuck_state)).
    exists 1%nat. split; [lia|].
    unfold valid_switch, LOW, HIGH, OFF. cbn. lia.
Defined.

(** *** Time and the host loop *)

Lemma switches_step_body (params : SimParams) (state : SimState) :
  switches (step_body params state) = switches state.
Proof. step_fields. reflexivity. Qed.

Lemma time_step_body (params : SimParams) (state : SimState) :
  time (step_body params state) = time state.
Proof. step_fields. reflexivity. Qed.

(** One step advances the time by [dt] and keeps the switches. *)
Lemma step_time (params : SimParams) (state : SimState) :
  valid_switches state ->
  exists state',
    step params state = Completed state' /\
    time state' = time state + dt params /\
    valid_switches state'.
Proof.
  intros Hv. eexists. split; [apply step_valid; exact Hv|]. split.
  - rewrite time_step_body. reflexivity.
  - unfold valid_switches. rewrite switches_step_body. exact Hv.
Qed.

Lemma steps_time (k : nat) (params : SimParams) (state : SimState) :
  valid_switches state ->
  exists state',
    steps k params state = Completed state' /\
    time state' = time state + INR k * dt params /\
    valid_switches state'.
Proof.
  revert state. induction k as [|k IH]; intros state Hv.
  - exists state. cbn [steps INR]. split; [reflexivity|]. split; [ring|exact Hv].
  - destruct (step_time params state Hv) as (s1 & Hstep & Ht1 & Hv1).
    destruct (IH s1 Hv1) as (s2 & Hsteps & Ht2 & Hv2).
    exists s2. cbn [steps]. rewrite Hstep. split; [exact Hsteps|].
    split; [|exact Hv2]. rewrite Ht2, Ht1, S_INR. ring.
Qed.

(** The stepping loop of a pass calls [step] once per iteration. *)
Lemma stepping_loop (k first : nat) (h : Host) :
  valid_switches (host_state h) ->
  exists h',
    for_range k first (fun _ => call_step) h = Completed h' /\
    host_log h' = host_log h ++ repeat EvStep k /\
    steps k (host_params h) (host_state h) = Completed (host_state h') /\
    valid_switches (host_state h').
Proof.
  revert first h. induction k as [|k IH]; intros first h Hv.
  - exists h. cbn. rewrite app_nil_r. auto.
  - destruct (step_time (host_params h) (host_state h) Hv) as (s1 & Hstep & _ & Hv1).
    cbn [for_range steps]. unfold call_step at 1. rewrite Hstep.
    destruct (IH (S first)
                (mkHost (host_params h) s1 (should_step h) (host_log h ++ [EvStep])) Hv1)
      as (h' & Hloop & Hlog & Hsteps & Hv').
    exists h'. split; [exact Hloop|]. split; [|split; [exact Hsteps|exact Hv']].
    rewrite Hlog. cbn [host_log repeat]. rewrite <- app_assoc. reflexivity.
Qed.

(** A pass of the host loop logs itself and then its [step] calls. *)
Lemma run_frame_log (run_gui : Frame) (h : Host) :
  keeps_switches_valid run_gui ->
  valid_switches (host_state h) ->
  exists h' setting,
    run_frame run_gui h = Completed h' /\
    host_log h' = host_log h ++ frame_block setting /\
    valid_switches (host_state h').
Proof.
  intros Hgui Hv0. unfold run_frame.
  pose proof (Hgui (host_params h) (host_state h) (should_step h) Hv0) as Hv.
  destruct (run_gui (host_params h) (host_state h) (should_step h)) as [[params state] should].
  cbn [fst snd] in Hv. cbn [should_step host_params].
  destruct should.
  - destruct (stepping_loop (Z.to_nat (step_multiplier params)) 0
                (mkHost params state true
                   (host_log h ++ [EvFrame true (step_multiplier params)])) Hv)
      as (h' & Hloop & Hlog & _ & Hv').
    exists h', (true, step_multiplier params).
    split; [exact Hloop|]. split; [|exact Hv'].
    rewrite Hlog. cbn [host_log]. unfold frame_block. cbn [fst snd].
    rewrite <- app_assoc. reflexivity.
  - eexists _, (false, step_multiplier params).
    split; [reflexivity|]. split; [reflexivity|exact Hv].
Qed.

Lemma host_loop_log (frames : list Frame) (h : Host) :
  Forall keeps_switches_valid frames ->
  valid_switches (host_state h) ->
  exists h' settings,
    host_loop frames h = Completed h' /\
    List.length settings = List.length frames /\
    host_log h' = host_log h ++ flat_map frame_block settings /\
    valid_switches (host_state h').
Proof.
  intros Hframes. revert h. induction Hframes as [|run_gui rest Hgui _ IH]; intros h Hv.
  - exists h, []. cbn. rewrite app_nil_r. auto.
  - destruct (run_frame_log run_gui h Hgui Hv) as (h1 & setting & Hrun & Hlog1 & Hv1).
    destruct (IH h1 Hv1) as (h2 & settings & Hloop & Hlen & Hlog2 & Hv2).
    exists h2, (setting :: settings). cbn [host_loop]. rewrite Hrun.
    split; [exact Hloop|]. split; [cbn; congruence|]. split; [|exact Hv2].
    rewrite Hlog2, Hlog1. cbn [flat_map]. rewrite <- app_assoc. reflexivity.
Qed.

Lemma count_steps_app (l1 l2 : list Event) :
  count_steps (l1 ++ l2) = (count_steps l1 + count_steps l2)%nat.
Proof.
  induction l1 as [|[should multiplier|] l1 IH]; cbn; [reflexivity|exact IH|].
  rewrite IH. reflexivity.
Qed.

Lemma allotted_steps_app (l1 l2 : list Event) :
  allotted_steps (l1 ++ l2) = (allotted_steps l1 + allotted_steps l2)%nat.
Proof.
  induction l1 as [|[should multiplier|] l1 IH]; cbn; [reflexivity| |exact IH].
  rewrite IH. lia.
Qed.

Lemma count_steps_repeat (k : nat) : count_steps (repeat EvStep k) = k.
Proof. induction k as [|k IH]; cbn; [reflexivity|]. rewrite IH. reflexivity. Qed.

Lemma allotted_steps_repeat (k : nat) : allotted_steps (repeat EvStep k) = O.
Proof. induction k as [|k IH]; cbn; [reflexivity|exact IH]. Qed.

(** Within the passes of the host loop the [step] calls are the allotted
    ones. *)
Lemma frame_blocks_steps (settings : list (bool * Z)) :
  count_steps (flat_map frame_block settings) =
  allotted_steps (flat_map frame_block settings).
Proof.
  induction settings as [|[should multiplier] settings IH]; [reflexivity|].
  cbn [flat_map]. rewrite count_steps_app, allotted_steps_app, IH.
  unfold frame_block. cbn [fst snd count_steps allotted_steps].
  rewrite count_steps_repeat, allotted_steps_repeat. lia.
Qed.

(** C7 (amended): each step advances the simulation time by exactly [dt], so
    [k] steps from a state take the time from [t0] to [t0 + k dt]; and a run
    of [main] calls [step], in each pass of the host loop with stepping
    enabled, exactly [step_multiplier] times (not at all when it is not
    positive), in no pass with stepping disabled, and once more after the loop
    has ended, before [main] returns 0. *)
Theorem main_step_calls (params : SimParams) (state : SimState)
    (frames : list Frame) (gl_loaded : Z) (k : nat) :
  valid_switches state ->
  Forall keeps_switches_valid frames ->
  gl_loaded <> 0%Z ->
  (exists state',
     steps k params state = Completed state' /\
     time state' = time state + INR k * dt params) /\
  (exists h settings,
     main 0 gl_loaded params state frames = Completed (0%Z, h) /\
     List.length settings = List.length frames /\
     host_log h = flat_map frame_block settings ++ [EvStep] /\
     count_steps (host_log h) = S (allotted_steps (host_log h))).
Proof.
  intros Hv Hframes Hgl. split.
  - destruct (steps_time k params state Hv) as (state' & Hsteps & Htime & _).
    exists state'. split; [exact Hsteps|exact Htime].
  - unfold main. cbn [Z.eqb negb].
    destruct (Z.eqb_spec gl_loaded 0) as [Hz|_]; [contradiction|].
    destruct (host_loop_log frames (mkHost params state false []) Hframes Hv)
      as (h1 & settings & Hloop & Hlen & Hlog & Hv1).
    rewrite Hloop. unfold call_step.
    destruct (step_time (host_params h1) (host_state h1) Hv1) as (s2 & Hstep & _ & _).
    rewrite Hstep. eexists _, settings.
    split; [reflexivity|]. split; [exact Hlen|].
    cbn [host_log] in *. rewrite Hlog. cbn [app]. split; [reflexivity|].
    rewrite count_steps_app, allotted_steps_app, frame_blocks_steps. cbn. lia.
Qed.

Lemma stepping_frame_keeps_switches : keeps_switches_valid stepping_frame.
Proof. intros params state should Hv. exact Hv. Qed.

Lemma main_step_calls_witness :
  (exists state',
     steps 2 freewheel_params rest_state = Completed state' /\
     time state' = time rest_state + INR 2 * dt freewheel_params) /\
  (exists h settings,
     main 0 1 freewheel_params rest_state [stepping_frame] = Completed (0%Z, h) /\
     List.length settings = 1%nat /\
     host_log h = flat_map frame_block settings ++ [EvStep] /\
     count_steps (host_log h) = S (allotted_steps (host_log h))).
Proof.
  apply (main_step_calls freewheel_params rest_state [stepping_frame] 1 2).
  - exact rest_state_valid.
  - constructor; [exact stepping_frame_keeps_switches|constructor].
  - lia.
Defined.

(** C7 (as stated, refuted): when the quit event is the first one, no pass of
    the host loop runs, and [main] still calls [step] once before it returns:
    the log holds one call where the passes are allotted none. *)
Lemma main_steps_after_quit :
  exists h,
    main 0 1 freewheel_params rest_state [] = Completed (0%Z, h) /\
    host_log h = [EvStep] /\
    count_steps (host_log h) = 1%nat /\
    allotted_steps (host_log h) = 0%nat.
Proof.
  unfold main. cbn [Z.eqb negb host_loop]. unfold call_step.
  cbn [host_params host_state should_step host_log].
  rewrite step_valid by exact rest_state_valid.
  eexists. split; [reflexivity|]. cbn. auto.
Qed.

End SimulatorFacts.

(** ** Properties of the Clarke transform and of the observers *)

Module GuiFacts.
Import Gui.

(** *** The Clarke transform *)

Lemma sqrt3_pos : 0 < sqrt 3.
Proof. apply sqrt_lt_R0. lra. Qed.

Lemma sqrt3_sqr : sqrt 3 * sqrt 3 = 3.
Proof. apply sqrt_sqrt. lra. Qed.

(** The transform in coordinates. *)
Lemma clarke_transform_formula (a b c : Scalar) :
  clarke_transform (mkVec3 a b c) = ((2 * a - b - c) / 3, (b - c) / sqrt 3).
Proof.
  pose proof sqrt3_pos as Hs.
  unfold clarke_transform, kClarkeTransform2x3, vdot. cbn [fst snd v0 v1 v2].
  f_equal; field. lra.
Qed.

(** C9: for every balanced triple (a, b, c), with a + b + c = 0, the Clarke
    transform, alpha = (2a - b - c)/3 and beta = (b - c)/sqrt 3, followed by
    the inverse Clarke transform gives (a, b, c) back, exactly. *)
Theorem clarke_round_trip (a b c : Scalar) :
  a + b + c = 0 ->
  clarke_transform (mkVec3 a b c) = ((2 * a - b - c) / 3, (b - c) / sqrt 3) /\
  inverse_clarke (clarke_transform (mkVec3 a b c)) = mkVec3 a b c.
Proof.
  intros Hsum. split; [apply clarke_transform_formula|].
  rewrite clarke_transform_formula. unfold inverse_clarke. cbn [fst snd].
  pose proof sqrt3_pos as Hs.
  assert (Hc : c = - a - b) by lra. subst c.
  f_equal; field; lra.
Qed.

Lemma clarke_round_trip_witness :
  1 + 2 + -3 = 0 /\
  inverse_clarke (clarke_transform (mkVec3 1 2 (-3))) = mkVec3 1 2 (-3).
Proof.
  split; [lra|].
  apply (proj2 (clarke_round_trip 1 2 (-3) ltac:(lra))).
Defined.

(** The inverse is forced: a map that undoes the Clarke transform on the
    balanced triples is [inverse_clarke]. *)
Lemma inverse_clarke_unique (inv : Complex -> Vec3 Scalar) :
  (forall a b c, a + b + c = 0 -> inv (clarke_transform (mkVec3 a b c)) = mkVec3 a b c) ->
  forall s, inv s = inverse_clarke s.
Proof.
  intros Hinv [alpha beta].
  pose proof sqrt3_pos as Hs. pose proof sqrt3_sqr as Hq.
  set (b := - alpha / 2 + sqrt 3 / 2 * beta).
  set (c := - alpha / 2 - sqrt 3 / 2 * beta).
  assert (Hsum : alpha + b + c = 0) by (unfold b, c; field).
  assert (Himg : clarke_transform (mkVec3 alpha b c) = (alpha, beta)).
  { rewrite clarke_transform_formula. unfold b, c. f_equal.
    - field.
    - apply Rmult_eq_reg_r with (sqrt 3); [|lra].
      unfold Rdiv. rewrite Rmult_assoc, Rinv_l by lra. nra. }
  rewrite <- Himg at 1. rewrite (Hinv alpha b c Hsum). reflexivity.
Qed.

(** *** The recorded power *)

(** Evaluates the assignments of [update_rolling_buffers] channel by
    channel. *)
Ltac buffer_fields :=
  cbv [update_rolling_buffers update_phase for_each
       set_ctx set_timestamps set_phase_vs set_phase_currents set_bEmfs set_normed_bEmfs
       set_pwm_duties set_pwm_level set_gate_states set_current_q set_current_d
       set_current_q_err set_current_q_integral set_current_d_err set_current_d_integral
       set_power_draw set_rotor_angular_vel set_torque
       rb_ctx rb_timestamps rb_phase_vs rb_phase_currents rb_bEmfs rb_normed_bEmfs
       rb_pwm_duties rb_pwm_level rb_gate_states rb_current_q rb_current_d
       rb_current_q_err rb_current_q_integral rb_current_d_err rb_current_d_integral
       rb_power_draw rb_rotor_angular_vel rb_torque].

(** The loop of the power calculation adds [bus_voltage * i] for the phases
    that are HIGH and nothing for the others. *)
Lemma compute_power_draw_spec (board : BoardState) (motor : MotorState) :
  compute_power_draw board motor = spec_power_draw board motor.
Proof.
  unfold compute_power_draw, spec_power_draw. cbn [for_each].
  destruct (vget (actual (gate board)) 0 =? HIGH)%Z;
    destruct (vget (actual (gate board)) 1 =? HIGH)%Z;
    destruct (vget (actual (gate board)) 2 =? HIGH)%Z; ring.
Qed.

Section ObserverFacts.

Variable get_pole_voltages : Scalar -> Vec3 Scalar -> GateState -> Vec3 Scalar.
Variable get_phase_voltages : Vec3 Scalar -> Vec3 Scalar -> Vec3 Scalar.
Variable show : Scalar -> string.

Local Abbreviation update := (update_rolling_buffers get_pole_voltages get_phase_voltages).

Lemma power_draw_update (time : Scalar) (board : BoardState) (motor : MotorState)
    (foc : FocState) (buffers : RollingBuffers) :
  rb_power_draw (update time board motor foc buffers) =
  <[next_idx (rb_ctx buffers) := compute_power_draw board motor]> (rb_power_draw buffers).
Proof. buffer_fields. reflexivity. Qed.

(** C10: the sample that [update_rolling_buffers] records holds, in the power
    channel, the bus voltage times the sum of the phase currents over exactly
    the phases whose actual gate state is HIGH; a phase that is LOW or OFF
    contributes zero. *)
Theorem update_rolling_buffers_power_draw (time : Scalar) (board : BoardState)
    (motor : MotorState) (foc : FocState) (buffers : RollingBuffers) :
  (next_idx (rb_ctx buffers) < List.length (rb_power_draw buffers))%nat ->
  rb_power_draw (update time board motor foc buffers) !! next_idx (rb_ctx buffers)
  = Some (spec_power_draw board motor).
Proof.
  intros Hidx. rewrite power_draw_update, compute_power_draw_spec.
  apply list_lookup_insert_eq. exact Hidx.
Qed.

End ObserverFacts.

(** *** The CSV export *)

Lemma string_app_assoc (a b c : string) : ((a ++ b) ++ c = a ++ (b ++ c))%string.
Proof. induction a as [|ch a IH]; cbn; [reflexivity|]. rewrite IH. reflexivity. Qed.

Lemma fold_left_write (f : nat -> string) (l : list nat) (acc : string) :
  fold_left (fun ss row => (ss ++ f row)%string) l acc =
  (acc ++ fold_right (fun row rest => (f row ++ rest)%string) EmptyString l)%string.
Proof.
  revert acc. induction l as [|x l IH]; intros acc; cbn [fold_left fold_right].
  - induction acc as [|ch acc IHa]; cbn; [reflexivity|]. rewrite <- IHa. reflexivity.
  - rewrite IH, string_app_assoc. reflexivity.
Qed.

Section CsvFacts.

Variable get_pole_voltages : Scalar -> Vec3 Scalar -> GateState -> Vec3 Scalar.
Variable get_phase_voltages : Vec3 Scalar -> Vec3 Scalar -> Vec3 Scalar.
Variable show : Scalar -> string.

(** [to_csv] writes the header and then the rows by index from 0. *)
Lemma to_csv_rows (rolling_buffers : RollingBuffers) :
  to_csv show rolling_buffers =
  (csv_header ++ write_rows show (csv_rows rolling_buffers))%string.
Proof.
  unfold to_csv, csv_rows. rewrite fold_left_write. f_equal.
  induction (seq 0 (get_rolling_buffer_count (rb_ctx rolling_buffers))) as [|row rows IH];
    [reflexivity|].
  cbn [fold_right map write_rows]. rewrite IH. f_equal.
Qed.

(** Until the ring buffer wraps, the rows by index are the rows in
    chronological order. *)
Lemma csv_rows_before_wrap (rolling_buffers : RollingBuffers) :
  (writes (rb_ctx rolling_buffers) <= capacity (rb_ctx rolling_buffers))%nat ->
  csv_rows rolling_buffers = chronological_rows rolling_buffers.
Proof.
  intros Hw. unfold csv_rows, chronological_rows, get_rolling_buffer_begin,
    get_rolling_buffer_count.
  destruct (Nat.leb_spec (writes (rb_ctx rolling_buffers)) (capacity (rb_ctx rolling_buffers)))
    as [_|Hlt]; [|lia].
  apply map_ext_in. intros k Hk. apply in_seq in Hk.
  rewrite Nat.add_0_l, Nat.mod_small by lia. reflexivity.
Qed.

(** C5 (the code departs from it): once the ring buffer has wrapped the
    export is not in chronological order.  After samples at times 1, 2 and 3
    into buffers of capacity 2, [to_csv] writes the header, then the row of
    time 3, then the row of time 2; oldest first is the row of time 2, then the
    row of time 3. *)
Theorem to_csv_after_wrap :
  to_csv show (wrapped_buffers get_pole_voltages get_phase_voltages) =
  (csv_header
   ++ write_rows show [[3; 30; 0; 0; 0; 0; 0; 0]; [2; 20; 0; 0; 0; 0; 0; 0]])%string /\
  chronological_rows (wrapped_buffers get_pole_voltages get_phase_voltages) =
  [[2; 20; 0; 0; 0; 0; 0; 0]; [3; 30; 0; 0; 0; 0; 0; 0]].
Proof.
  split.
  - rewrite to_csv_rows. f_equal.
  - reflexivity.
Qed.

End CsvFacts.

Lemma update_rolling_buffers_power_draw_witness :
  (0 < 2)%nat /\
  rb_power_draw
    (update_rolling_buffers (fun _ _ _ => vzero) (fun _ _ => vzero) 0
       driving_board loaded_motor quiet_foc (empty_buffers 2)) !! 0%nat
  = Some (spec_power_draw driving_board loaded_motor).
Proof.
  split; [lia|].
  apply (update_rolling_buffers_power_draw (fun _ _ _ => vzero) (fun _ _ => vzero) 0
           driving_board loaded_motor quiet_foc (empty_buffers 2)).
  cbn. lia.
Defined.

(** In the example only the first phase counts: 24 V times 1 A. *)
Lemma spec_power_draw_example : spec_power_draw driving_board loaded_motor = 24.
Proof. unfold spec_power_draw. cbn. ring. Qed.

(** *** The random cogging torque map *)

Lemma fold_left_Rplus (l : list Scalar) (acc : Scalar) :
  fold_left Rplus l acc = acc + sum_list l.
Proof.
  revert acc. induction l as [|x l IH]; intros acc; cbn [fold_left sum_list fold_right].
  - ring.
  - rewrite IH. unfold sum_list. ring.
Qed.

(** The energy the check computes is the integral sum * 2 pi / N. *)
Lemma cogging_energy_spec (m : list Scalar) :
  cogging_energy m = sum_list m * (2 * PI / INR (List.length m)).
Proof.
  unfold cogging_energy, kPI. rewrite fold_left_Rplus. ring.
Qed.

Lemma max_abs_fold_ge_acc (l : list Scalar) (acc : Scalar) :
  acc <= fold_left (fun max_abs torque => Rmax max_abs (Rabs torque)) l acc.
Proof.
  revert acc. induction l as [|x l IH]; intros acc; cbn [fold_left]; [lra|].
  apply Rle_trans with (Rmax acc (Rabs x)); [apply Rmax_l|apply IH].
Qed.

(** Every magnitude is at most the maximum found. *)
Lemma max_abs_fold_ge (l : list Scalar) (acc t : Scalar) :
  In t l -> Rabs t <= fold_left (fun max_abs torque => Rmax max_abs (Rabs torque)) l acc.
Proof.
  revert acc. induction l as [|x l IH]; intros acc Hin; [destruct Hin|].
  cbn [fold_left]. destruct Hin as [->|Hin].
  - apply Rle_trans with (Rmax acc (Rabs t)); [apply Rmax_r|apply max_abs_fold_ge_acc].
  - apply IH. exact Hin.
Qed.

(** The maximum found is the start value or the magnitude of an entry. *)
Lemma max_abs_fold_attained (l : list Scalar) (acc : Scalar) :
  fold_left (fun max_abs torque => Rmax max_abs (Rabs torque)) l acc = acc \/
  exists t, In t l /\
    Rabs t = fold_left (fun max_abs torque => Rmax max_abs (Rabs torque)) l acc.
Proof.
  revert acc. induction l as [|x l IH]; intros acc; cbn [fold_left]; [left; reflexivity|].
  destruct (IH (Rmax acc (Rabs x))) as [Heq|(t & Hin & Ht)].
  - rewrite Heq. unfold Rmax. destruct (Rle_dec acc (Rabs x)) as [Hle|Hgt].
    + right. exists x. split; [left; reflexivity|reflexivity].
    + left. reflexivity.
  - right. exists t. split; [right; exact Hin|exact Ht].
Qed.

Lemma max_abs_torque_nonneg (m : list Scalar) : 0 <= max_abs_torque m.
Proof. apply max_abs_fold_ge_acc. Qed.

(** A map with a nonzero entry has a positive maximum magnitude. *)
Lemma max_abs_torque_pos (m : list Scalar) :
  (exists t, In t m /\ t <> 0) -> 0 < max_abs_torque m.
Proof.
  intros (t & Hin & Hne).
  apply Rlt_le_trans with (Rabs t); [apply Rabs_pos_lt; exact Hne|].
  apply max_abs_fold_ge. exact Hin.
Qed.

(** After the rescaling every magnitude is at most 0.01, and the largest one
    is 0.01. *)
Lemma rescale_bounds (m : list Scalar) :
  0 < max_abs_torque m ->
  exists rescaled,
    rescale m = Some rescaled /\
    rescaled = map (fun torque => torque * (1 / 100 / max_abs_torque m)) m /\
    (forall e, In e rescaled -> Rabs e <= 1 / 100) /\
    (exists e, In e rescaled /\ Rabs e = 1 / 100).
Proof.
  intros Hpos. unfold rescale.
  destruct (Req_dec_T (max_abs_torque m) 0) as [Hz|_]; [lra|].
  eexists. split; [reflexivity|]. split; [reflexivity|].
  set (k := 1 / 100 / max_abs_torque m).
  assert (Hk : 0 < k).
  { unfold k. apply Rdiv_lt_0_compat; lra. }
  assert (Hscale : forall t, Rabs (t * k) = Rabs t * k).
  { intros t. rewrite Rabs_mult, (Rabs_right k) by lra. reflexivity. }
  assert (Hmax : max_abs_torque m * k = 1 / 100).
  { unfold k. field. lra. }
  split.
  - intros e He. apply in_map_iff in He. destruct He as (t & <- & Hin).
    rewrite Hscale, <- Hmax.
    apply Rmult_le_compat_r; [lra|]. apply max_abs_fold_ge. exact Hin.
  - destruct (max_abs_fold_attained m 0) as [Heq|(t & Hin & Ht)].
    + unfold max_abs_torque in Hpos. lra.
    + exists (t * k). split.
      * apply in_map_iff. exists t. split; [reflexivity|exact Hin].
      * rewrite Hscale, Ht. exact Hmax.
Qed.

(** C8: after the random generation of the cogging map, for a generated map
    that is not zero throughout (the draws of the normal distribution give no
    other), the rescaled map has every entry of magnitude at most 0.01 and an
    entry of magnitude 0.01; the energy check computes
    sum(tau_cog) * 2 pi / N over that map and prints the warning if and only
    if its magnitude exceeds 1e-8; and the map that is kept is the rescaled
    one, untouched by the check (no recentering is applied). *)
Theorem generate_random_cogging_torque_map_spec (draws : nat -> Scalar) (p : Z)
    (cogging_torque_map : list Scalar) :
  let generated := generated_cogging_map draws p (List.length cogging_torque_map) in
  (exists t, In t generated /\ t <> 0) ->
  exists rescaled out,
    generate_random_cogging_torque_map draws p cogging_torque_map = Some (rescaled, out) /\
    List.length rescaled = List.length cogging_torque_map /\
    (forall e, In e rescaled -> Rabs e <= 1 / 100) /\
    (exists e, In e rescaled /\ Rabs e = 1 / 100) /\
    (out = energy_warning <->
     1 / 100000000 < Rabs (sum_list rescaled * (2 * PI / INR (List.length rescaled)))) /\
    (out = energy_warning \/ out = EmptyString) /\
    rescaled = map (fun torque => torque * (1 / 100 / max_abs_torque generated)) generated.
Proof.
  intros generated Hne.
  destruct (rescale_bounds generated (max_abs_torque_pos generated Hne))
    as (rescaled & Hres & Hmap & Hle & Hmax).
  exists rescaled, (energy_check rescaled).
  unfold generate_random_cogging_torque_map. fold generated. rewrite Hres.
  split; [reflexivity|]. split.
  { rewrite Hmap, length_map. unfold generated, generated_cogging_map.
    rewrite length_map, length_seq. reflexivity. }
  split; [exact Hle|]. split; [exact Hmax|].
  rewrite <- cogging_energy_spec. unfold energy_check.
  destruct (Rlt_dec (1 / 100000000) (Rabs (cogging_energy rescaled))) as [Hgt|Hngt].
  - split; [tauto|]. split; [left; reflexivity|exact Hmap].
  - split; [|split; [right; reflexivity|exact Hmap]].
    split; [discriminate|contradiction].
Qed.

(** At index 0 the sines vanish and the cosines are 1. *)
Lemma cogging_sample_first (coeffs : list Scalar) (p : Z) (size : nat) :
  cogging_sample coeffs p size 0 =
  nth 0 coeffs 0 + nth 2 coeffs 0 + nth 4 coeffs 0
  + nth 6 coeffs 0 + nth 8 coeffs 0 + nth 10 coeffs 0.
Proof.
  unfold cogging_sample. cbn [for_each INR Nat.mul Nat.add].
  assert (Hang : forall f, 0 / INR size * 2 * kPI * f = 0)
    by (intros f; unfold Rdiv; ring).
  rewrite !Hang, cos_0, sin_0. ring.
Qed.

Lemma generate_random_cogging_torque_map_spec_witness :
  (exists t, In t (generated_cogging_map (fun _ => 1) 4 4) /\ t <> 0) /\
  exists rescaled out,
    generate_random_cogging_torque_map (fun _ => 1) 4 [0; 0; 0; 0] = Some (rescaled, out) /\
    (exists e, In e rescaled /\ Rabs e = 1 / 100).
Proof.
  assert (Hne : exists t, In t (generated_cogging_map (fun _ => 1) 4 4) /\ t <> 0).
  { exists (cogging_sample (fourier_coeffs (fun _ => 1)) 4 4 0).
    split; [left; reflexivity|].
    rewrite cogging_sample_first. cbn. lra. }
  split; [exact Hne|].
  destruct (generate_random_cogging_torque_map_spec (fun _ => 1) 4 [0; 0; 0; 0] Hne)
    as (rescaled & out & Hgen & _ & _ & Hmax & _).
  exists rescaled, out. split; [exact Hgen|exact Hmax].
Defined.

End GuiFacts.

(** ** Further properties of the integrator step *)

Module SimulatorMore.
Import Simulator SimulatorFacts.

(** The state a step returns. *)
Lemma step_completed_body (params : SimParams) (state state' : SimState) :
  step params state = Completed state' ->
  state' = step_body params
             (set_v_poles (applied_poles params state)
                (set_time (time state + dt params) state)).
Proof.
  intros Hstep.
  pose proof (step_completed_valid params state state' Hstep) as Hv.
  rewrite (step_valid params state Hv) in Hstep.
  congruence.
Qed.

Lemma bEmfs_step_body (params : SimParams) (state : SimState) :
  bEmfs (step_body params state) =
  vscale (compute_normalized_bEmfs params state) (angular_vel_rotor state).
Proof. step_fields. reflexivity. Qed.

Lemma v_neutral_step_body (params : SimParams) (state : SimState) :
  v_neutral (step_body params state) =
  (vsum (v_poles state) - vsum (bEmfs (step_body params state))) / 3.
Proof. step_fields. reflexivity. Qed.

Lemma v_phases_step_body (params : SimParams) (state : SimState) :
  v_phases (step_body params state) =
  mkVec3 (v0 (v_poles state) - v_neutral (step_body params state))
         (v1 (v_poles state) - v_neutral (step_body params state))
         (v2 (v_poles state) - v_neutral (step_body params state)).
Proof. step_fields. reflexivity. Qed.

Lemma i_coils_step_body_vec (params : SimParams) (state : SimState) :
  let st := step_body params state in
  let di (v_phase bEmf i : Scalar) :=
    (v_phase - bEmf - i * phase_resistance params) / phase_inductance params in
  i_coils st =
  mkVec3
    (v0 (i_coils state)
     + di (v0 (v_phases st)) (v0 (bEmfs st)) (v0 (i_coils state)) * dt params)
    (v1 (i_coils state)
     + di (v1 (v_phases st)) (v1 (bEmfs st)) (v1 (i_coils state)) * dt params)
    (v2 (i_coils state)
     + di (v2 (v_phases st)) (v2 (bEmfs st)) (v2 (i_coils state)) * dt params).
Proof. step_fields. reflexivity. Qed.

(** X1: the neutral voltage makes the phase voltages add up to the sum of
    the back EMFs, so over a step the sum of the three phase currents is
    multiplied by 1 - R dt / L: currents that add up to zero (an isolated
    neutral) still add up to zero after the step. *)
Theorem step_current_sum (params : SimParams) (state state' : SimState) :
  phase_inductance params <> 0 ->
  step params state = Completed state' ->
  vsum (v_phases state') = vsum (bEmfs state') /\
  vsum (i_coils state') =
  vsum (i_coils state)
  * (1 - phase_resistance params * dt params / phase_inductance params) /\
  (vsum (i_coils state) = 0 -> vsum (i_coils state') = 0).
Proof.
  intros HL Hstep.
  rewrite (step_completed_body params state state' Hstep).
  set (s1 := set_v_poles (applied_poles params state)
               (set_time (time state + dt params) state)).
  assert (Hph : vsum (v_phases (step_body params s1)) = vsum (bEmfs (step_body params s1))).
  { rewrite v_phases_step_body, v_neutral_step_body. unfold vsum. cbn [v0 v1 v2]. field. }
  assert (Hsum : vsum (i_coils (step_body params s1)) =
                 vsum (i_coils state)
                 * (1 - phase_resistance params * dt params / phase_inductance params)).
  { rewrite i_coils_step_body_vec. cbv zeta.
    change (i_coils s1) with (i_coils state).
    unfold vsum in *. cbn [v0 v1 v2].
    set (p0 := v0 (v_phases (step_body params s1))) in *.
    set (p1 := v1 (v_phases (step_body params s1))) in *.
    set (p2 := v2 (v_phases (step_body params s1))) in *.
    set (e0 := v0 (bEmfs (step_body params s1))) in *.
    set (e1 := v1 (bEmfs (step_body params s1))) in *.
    set (e2 := v2 (bEmfs (step_body params s1))) in *.
    assert (Hp : p2 = e0 + e1 + e2 - p0 - p1) by lra.
    rewrite Hp. field. exact HL. }
  split; [exact Hph|]. split; [exact Hsum|].
  intros Hz. rewrite Hsum, Hz. ring.
Qed.

Lemma step_current_sum_witness :
  phase_inductance freewheel_params <> 0 /\
  exists state',
    step freewheel_params freewheel_state = Completed state' /\
    vsum (i_coils state') = 0.
Proof.
  assert (HL : phase_inductance freewheel_params <> 0) by (cbn; lra).
  split; [exact HL|].
  eexists. split; [apply step_valid; exact freewheel_state_valid|].
  apply (step_current_sum freewheel_params freewheel_state _ HL
           (step_valid freewheel_params freewheel_state freewheel_state_valid)).
  unfold vsum. cbn [i_coils freewheel_state v0 v1 v2]. lra.
Defined.

(** *** A motor that is not driven *)

(** One step from a motor without current and at standstill whose three
    gates are all LOW, or all HIGH. *)
Lemma step_rest (params : SimParams) (state : SimState) (sw : Z) :
  phase_inductance params <> 0 ->
  inertia_rotor params <> 0 ->
  sw = LOW \/ sw = HIGH ->
  switches state = mkVec3 sw sw sw ->
  i_coils state = vzero ->
  angular_vel_rotor state = 0 ->
  exists state',
    step params state = Completed state' /\
    switches state' = mkVec3 sw sw sw /\
    i_coils state' = vzero /\
    angular_vel_rotor state' = 0 /\
    torque state' = 0 /\
    angle_rotor state' = fmod (angle_rotor state) (2 * PI).
Proof.
  intros HL HJ Hsw Hswitches Hi Hw.
  assert (Hv : valid_switches state).
  { intros n Hn. rewrite Hswitches. unfold valid_switch.
    destruct n as [|[|[|n]]]; cbn [vget v0 v1 v2]; tauto. }
  eexists. split; [apply step_valid; exact Hv|].
  set (s1 := set_v_poles (applied_poles params state)
               (set_time (time state + dt params) state)).
  assert (Hpoles : v_poles s1 =
                   mkVec3 (pole_voltage params sw 0) (pole_voltage params sw 0)
                     (pole_voltage params sw 0)).
  { unfold s1, applied_poles. cbn [v_poles set_v_poles].
    rewrite Hswitches, Hi. reflexivity. }
  assert (Hb : bEmfs (step_body params s1) = vzero).
  { rewrite bEmfs_step_body. change (angular_vel_rotor s1) with (angular_vel_rotor state).
    rewrite Hw. unfold vscale, vzero. f_equal; ring. }
  assert (Hn : v_neutral (step_body params s1) = pole_voltage params sw 0).
  { rewrite v_neutral_step_body, Hb, Hpoles. unfold vsum, vzero. cbn [v0 v1 v2]. field. }
  assert (Hp : v_phases (step_body params s1) = vzero).
  { rewrite v_phases_step_body, Hn, Hpoles. cbn [v0 v1 v2]. unfold vzero. f_equal; ring. }
  assert (Hi' : i_coils (step_body params s1) = vzero).
  { rewrite i_coils_step_body_vec. cbv zeta. rewrite Hp, Hb.
    change (i_coils s1) with (i_coils state). rewrite Hi.
    unfold vzero. cbn [v0 v1 v2]. f_equal; field; exact HL. }
  assert (Ht : torque (step_body params s1) = 0).
  { rewrite torque_step_body, Hi'. unfold vdot, vzero. cbn [v0 v1 v2]. ring. }
  assert (Hw' : angular_vel_rotor (step_body params s1) = 0).
  { rewrite angular_vel_step_body, Ht.
    change (angular_vel_rotor s1) with (angular_vel_rotor state). rewrite Hw.
    field. exact HJ. }
  split; [rewrite switches_step_body; exact Hswitches|].
  split; [exact Hi'|]. split; [exact Hw'|]. split; [exact Ht|].
  rewrite angle_rotor_step_body, Hw'. unfold kPI.
  change (angle_rotor s1) with (angle_rotor state). f_equal. ring.
Qed.

(** [fmod] leaves an angle of [0, 2 pi) as it is. *)
Lemma fmod_turn_id (x : R) : 0 <= x < 2 * PI -> fmod x (2 * PI) = x.
Proof.
  intros [Hlo Hhi]. apply fmod_small; lra.
Qed.

(** X2: a motor without current and at standstill whose gates are all LOW, or
    all HIGH, stays so: after any number of steps the currents and the angular
    velocity are still zero, and a rotor angle in [0, 2 pi) has not moved. *)
Theorem steps_rest_equilibrium (k : nat) (params : SimParams) (state : SimState) (sw : Z) :
  phase_inductance params <> 0 ->
  inertia_rotor params <> 0 ->
  sw = LOW \/ sw = HIGH ->
  switches state = mkVec3 sw sw sw ->
  i_coils state = vzero ->
  angular_vel_rotor state = 0 ->
  0 <= angle_rotor state < 2 * PI ->
  exists state',
    steps k params state = Completed state' /\
    i_coils state' = vzero /\
    angular_vel_rotor state' = 0 /\
    angle_rotor state' = angle_rotor state.
Proof.
  intros HL HJ Hsw. revert state.
  induction k as [|k IH]; intros state Hswitches Hi Hw Ha.
  - exists state. cbn [steps]. auto.
  - destruct (step_rest params state sw HL HJ Hsw Hswitches Hi Hw)
      as (s1 & Hstep & Hsw1 & Hi1 & Hw1 & _ & Ha1).
    rewrite (fmod_turn_id _ Ha) in Ha1.
    destruct (IH s1 Hsw1 Hi1 Hw1) as (s2 & Hsteps & Hi2 & Hw2 & Ha2).
    { rewrite Ha1. exact Ha. }
    exists s2. cbn [steps]. rewrite Hstep.
    split; [exact Hsteps|]. split; [exact Hi2|]. split; [exact Hw2|].
    rewrite Ha2. exact Ha1.
Qed.

Lemma steps_rest_equilibrium_witness :
  exists state',
    steps 1000 freewheel_params rest_state = Completed state' /\
    i_coils state' = vzero /\
    angular_vel_rotor state' = 0 /\
    angle_rotor state' = angle_rotor rest_state.
Proof.
  apply (steps_rest_equilibrium 1000 freewheel_params rest_state LOW).
  - cbn. lra.
  - cbn. lra.
  - left. reflexivity.
  - reflexivity.
  - reflexivity.
  - reflexivity.
  - cbn [angle_rotor rest_state]. pose proof PI_RGT_0. lra.
Defined.

(** *** The angles after a step *)

(** [fmod] stays within one divisor of zero. *)
Lemma fmod_within (x y : R) : 0 < y -> - y < fmod x y < y.
Proof.
  intros Hy. destruct (Rle_lt_dec 0 x) as [Hx|Hx].
  - pose proof (fmod_nonneg x y Hy Hx). lra.
  - pose proof (fmod_neg x y Hy Hx). lra.
Qed.

(** X3: after any step that returns, the rotor angle and the electrical angle
    lie strictly within one turn of zero; when the angle before wrapping is not
    negative and the number of pole pairs is not negative they lie in
    [0, 2 pi). *)
Theorem step_angles_within_turn (params : SimParams) (state state' : SimState) :
  step params state = Completed state' ->
  (- (2 * PI) < angle_rotor state' < 2 * PI /\
   - (2 * PI) < angle_electrical state' < 2 * PI) /\
  ((0 <= num_pole_pairs params)%Z /\
   0 <= angle_rotor state + angular_vel_rotor state' * dt params ->
   0 <= angle_rotor state' < 2 * PI /\ 0 <= angle_electrical state' < 2 * PI).
Proof.
  intros Hstep.
  rewrite (step_completed_body params state state' Hstep).
  set (s1 := set_v_poles (applied_poles params state)
               (set_time (time state + dt params) state)).
  assert (H2pi : 0 < 2 * PI) by (pose proof PI_RGT_0; lra).
  split.
  - rewrite angle_rotor_step_body, angle_electrical_step_body. unfold kPI.
    split; apply fmod_within; exact H2pi.
  - intros [Hpp Hpos]. apply step_body_angles_wrapped; assumption.
Qed.

Lemma step_angles_within_turn_witness :
  exists state',
    step freewheel_params reverse_state = Completed state' /\
    - (2 * PI) < angle_rotor state' < 2 * PI /\
    - (2 * PI) < angle_electrical state' < 2 * PI.
Proof.
  eexists. split; [apply step_valid; exact reverse_state_valid|].
  apply (step_angles_within_turn freewheel_params reverse_state _
           (step_valid freewheel_params reverse_state reverse_state_valid)).
Defined.

(** *** The back EMF waveform *)

(** An odd harmonic changes sign over half a turn. *)
Lemma sin_odd_harmonic_half_turn (k : nat) (theta : R) :
  sin (INR (2 * k + 1) * (theta + PI)) = - sin (INR (2 * k + 1) * theta).
Proof.
  replace (INR (2 * k + 1) * (theta + PI))
    with (INR (2 * k + 1) * theta + PI + 2 * INR k * PI).
  - rewrite sin_period. apply neg_sin.
  - rewrite plus_INR, mult_INR. simpl. ring.
Qed.

Lemma get_back_emf_harmonics (a : Vec5) (theta : Scalar) :
  get_back_emf a theta =
  sin (INR (2 * 0 + 1) * theta) * c1 a + sin (INR (2 * 1 + 1) * theta) * c3 a
  + sin (INR (2 * 2 + 1) * theta) * c5 a + sin (INR (2 * 3 + 1) * theta) * c7 a
  + sin (INR (2 * 4 + 1) * theta) * c9 a.
Proof. reflexivity. Qed.

(** X4: the back EMF waveform has odd harmonics only: it is an odd function
    of the electrical angle, it changes sign over half a turn, and it repeats
    after a full turn. *)
Theorem get_back_emf_symmetry (a : Vec5) (theta : Scalar) :
  get_back_emf a (- theta) = - get_back_emf a theta /\
  get_back_emf a (theta + PI) = - get_back_emf a theta /\
  get_back_emf a (theta + 2 * PI) = get_back_emf a theta.
Proof.
  assert (Hhalf : forall x, get_back_emf a (x + PI) = - get_back_emf a x).
  { intros x. rewrite !get_back_emf_harmonics, !sin_odd_harmonic_half_turn. ring. }
  split; [|split].
  - rewrite !get_back_emf_harmonics.
    replace (INR (2 * 0 + 1) * - theta) with (- (INR (2 * 0 + 1) * theta)) by ring.
    replace (INR (2 * 1 + 1) * - theta) with (- (INR (2 * 1 + 1) * theta)) by ring.
    replace (INR (2 * 2 + 1) * - theta) with (- (INR (2 * 2 + 1) * theta)) by ring.
    replace (INR (2 * 3 + 1) * - theta) with (- (INR (2 * 3 + 1) * theta)) by ring.
    replace (INR (2 * 4 + 1) * - theta) with (- (INR (2 * 4 + 1) * theta)) by ring.
    rewrite !sin_antisym. ring.
  - apply Hhalf.
  - replace (theta + 2 * PI) with (theta + PI + PI) by ring.
    rewrite !Hhalf. ring.
Qed.

(** The cosine of a harmonic of a third of a turn. *)
Lemma cos_third_turn_shift (k : nat) (x : R) :
  cos (x + INR k * (2 * PI)) = cos x.
Proof.
  replace (x + INR k * (2 * PI)) with (x + 2 * INR k * PI) by ring.
  apply cos_period.
Qed.

Lemma cos_harmonic_1 : cos (1 * (2 * PI / 3)) = -1 / 2.
Proof.
  replace (1 * (2 * PI / 3)) with (2 * (PI / 3)) by field. exact cos_2PI3.
Qed.

Lemma cos_harmonic_3 : cos (3 * (2 * PI / 3)) = 1.
Proof.
  replace (3 * (2 * PI / 3)) with (2 * PI) by field. exact cos_2PI.
Qed.

Lemma cos_harmonic_5 : cos (5 * (2 * PI / 3)) = -1 / 2.
Proof.
  replace (5 * (2 * PI / 3)) with (- (2 * (PI / 3)) + INR 2 * (2 * PI))
    by (simpl; field).
  rewrite cos_third_turn_shift, <- cos_sym. exact cos_2PI3.
Qed.

Lemma cos_harmonic_7 : cos (7 * (2 * PI / 3)) = -1 / 2.
Proof.
  replace (7 * (2 * PI / 3)) with (2 * (PI / 3) + INR 2 * (2 * PI))
    by (simpl; field).
  rewrite cos_third_turn_shift. exact cos_2PI3.
Qed.

Lemma cos_harmonic_9 : cos (9 * (2 * PI / 3)) = 1.
Proof.
  replace (9 * (2 * PI / 3)) with (0 + INR 3 * (2 * PI)) by (simpl; field).
  rewrite cos_third_turn_shift. exact cos_0.
Qed.

(** One harmonic summed over the three phases. *)
Lemma sin_three_phase (h x phi : R) :
  sin (h * x) + sin (h * (x + phi)) + sin (h * (x - phi)) =
  sin (h * x) * (1 + 2 * cos (h * phi)).
Proof.
  replace (h * (x + phi)) with (h * x + h * phi) by ring.
  replace (h * (x - phi)) with (h * x - h * phi) by ring.
  rewrite sin_plus, sin_minus. ring.
Qed.

(** X5: summed over the three phases, the normalized back EMFs keep only
    the harmonics that are multiples of three: the sum is
    3 (a3 sin 3 theta + a9 sin 9 theta).  A step therefore stores back EMFs
    that add up to 3 (a3 sin 3 theta + a9 sin 9 theta) omega, which is zero
    for a motor without third and ninth harmonic. *)
Theorem step_bEmf_sum (params : SimParams) (state state' : SimState) :
  step params state = Completed state' ->
  vsum (compute_normalized_bEmfs params state) =
  3 * (c3 (normalized_bEmf_coeffs params) * sin (3 * angle_electrical state)
       + c9 (normalized_bEmf_coeffs params) * sin (9 * angle_electrical state)) /\
  vsum (bEmfs state') =
  3 * (c3 (normalized_bEmf_coeffs params) * sin (3 * angle_electrical state)
       + c9 (normalized_bEmf_coeffs params) * sin (9 * angle_electrical state))
  * angular_vel_rotor state.
Proof.
  intros Hstep.
  assert (Hsum : vsum (compute_normalized_bEmfs params state) =
    3 * (c3 (normalized_bEmf_coeffs params) * sin (3 * angle_electrical state)
         + c9 (normalized_bEmf_coeffs params) * sin (9 * angle_electrical state))).
  { unfold vsum, compute_normalized_bEmfs. cbn [v0 v1 v2].
    rewrite !get_back_emf_spec. unfold spec_normed_bEmf, kPI.
    set (x := angle_electrical state). set (a := normalized_bEmf_coeffs params).
    pose proof (sin_three_phase 1 x (2 * PI / 3)) as H1.
    pose proof (sin_three_phase 3 x (2 * PI / 3)) as H3.
    pose proof (sin_three_phase 5 x (2 * PI / 3)) as H5.
    pose proof (sin_three_phase 7 x (2 * PI / 3)) as H7.
    pose proof (sin_three_phase 9 x (2 * PI / 3)) as H9.
    rewrite cos_harmonic_1 in H1. rewrite cos_harmonic_3 in H3.
    rewrite cos_harmonic_5 in H5. rewrite cos_harmonic_7 in H7.
    rewrite cos_harmonic_9 in H9.
    rewrite !Rmult_1_l in H1.
    nra. }
  split; [exact Hsum|].
  rewrite (step_completed_body params state state' Hstep), bEmfs_step_body.
  rewrite <- Hsum.
  change (vsum (vscale (compute_normalized_bEmfs params state) (angular_vel_rotor state)) =
          vsum (compute_normalized_bEmfs params state) * angular_vel_rotor state).
  unfold vsum, vscale. cbn [v0 v1 v2]. ring.
Qed.

Lemma step_bEmf_sum_witness :
  exists state',
    step freewheel_params reverse_state = Completed state' /\
    vsum (bEmfs state') = 0.
Proof.
  eexists. split; [apply step_valid; exact reverse_state_valid|].
  rewrite (proj2 (step_bEmf_sum freewheel_params reverse_state _
                    (step_valid freewheel_params reverse_state reverse_state_valid))).
  cbn [normalized_bEmf_coeffs freewheel_params c3 c9]. ring.
Defined.

End SimulatorMore.

(** ** Further properties of the observers and of the motor configuration *)

Module GuiMore.
Import Gui GuiFacts.

(** *** The rolling time window *)

(** X6: the time window of the rolling plots is never longer than the
    rolling history and never starts before the oldest valid sample; with no
    sample and a history that is not negative it is the empty window at 0. *)
Theorem rolling_plot_window (buffers : RollingBuffers) (rolling_history : Scalar) :
  let p := get_rolling_plot_params buffers rolling_history in
  end_time p - begin_time p <= rolling_history /\
  (count p <> O -> read (rb_timestamps buffers) (begin p) <= begin_time p) /\
  (count p = O /\ 0 <= rolling_history -> begin_time p = 0 /\ end_time p = 0).
Proof.
  cbv zeta. unfold get_rolling_plot_params.
  cbn [count begin begin_time end_time].
  set (n := get_rolling_buffer_count (rb_ctx buffers)).
  split; [|split].
  - pose proof (Rmax_r (fst (if negb (n =? 0)%nat
                             then (read (rb_timestamps buffers)
                                     (get_rolling_buffer_begin (rb_ctx buffers)),
                                   read (rb_timestamps buffers)
                                     (get_rolling_buffer_back (rb_ctx buffers)))
                             else (0, 0)))
                  (snd (if negb (n =? 0)%nat
                        then (read (rb_timestamps buffers)
                                (get_rolling_buffer_begin (rb_ctx buffers)),
                              read (rb_timestamps buffers)
                                (get_rolling_buffer_back (rb_ctx buffers)))
                        else (0, 0)) - rolling_history)) as Hmax.
    lra.
  - intros Hn. destruct (Nat.eqb_spec n 0) as [Hz|_]; [contradiction|].
    cbn [negb fst snd]. apply Rmax_l.
  - intros [Hn Hh]. rewrite Hn. cbn [Nat.eqb negb fst snd].
    split; [|reflexivity]. apply Rmax_left. lra.
Qed.

(** *** The auto scroll *)

(** The limits that the auto scroll sets. *)
Lemma autoscroll_set_limits (latest_data : Scalar) (ctx : AutoScroller) (lo hi : Scalar) :
  fst (implot_autoscroll_next_plot latest_data ctx) = Some (lo, hi) ->
  (latest_data < last_y_min ctx /\ lo = latest_data \/
   last_y_max ctx < latest_data /\ hi = latest_data) /\
  hi - lo =
  last_y_range ctx
  + (if Rlt_dec (last_y_range ctx) (1 / 100000) then 1 / 100000 else 0).
Proof.
  unfold implot_autoscroll_next_plot. cbn [fst]. intros Hset.
  destruct (can_trigger_auto_scroll ctx); [|discriminate Hset].
  destruct (Rlt_dec latest_data (last_y_min ctx)) as [Hlt|Hge].
  - injection Hset as <- <-. split; [left; split; [exact Hlt|reflexivity]|ring].
  - destruct (Rlt_dec (last_y_max ctx) latest_data) as [Hgt|_]; [|discriminate Hset].
    injection Hset as <- <-. split; [right; split; [exact Hgt|reflexivity]|ring].
Qed.

(** X7: the auto scroll acts on every other call at most, and never while
    the latest value is inside the last limits; when it acts it puts the latest
    value on the edge of the new limits that it had left the plot by, and the
    new limits are as far apart as the last range (and 1e-5 more when that
    range is below 1e-5). *)
Theorem autoscroll_limits (latest_data next_data : Scalar) (ctx : AutoScroller) :
  let r := implot_autoscroll_next_plot latest_data ctx in
  can_trigger_auto_scroll (snd r) = negb (can_trigger_auto_scroll ctx) /\
  (fst r = None \/ fst (implot_autoscroll_next_plot next_data (snd r)) = None) /\
  (last_y_min ctx <= latest_data <= last_y_max ctx -> fst r = None) /\
  (forall lo hi, fst r = Some (lo, hi) ->
     (latest_data < last_y_min ctx /\ lo = latest_data \/
      last_y_max ctx < latest_data /\ hi = latest_data) /\
     hi - lo =
     last_y_range ctx
     + (if Rlt_dec (last_y_range ctx) (1 / 100000) then 1 / 100000 else 0)).
Proof.
  cbv zeta. unfold implot_autoscroll_next_plot.
  cbn [fst snd can_trigger_auto_scroll last_y_min last_y_max last_y_range].
  split; [reflexivity|]. split; [|split].
  - destruct (can_trigger_auto_scroll ctx); [right; reflexivity|left; reflexivity].
  - intros [Hlo Hhi]. destruct (can_trigger_auto_scroll ctx); [|reflexivity].
    destruct (Rlt_dec latest_data (last_y_min ctx)) as [Hlt|_]; [lra|].
    destruct (Rlt_dec (last_y_max ctx) latest_data) as [Hgt|_]; [lra|reflexivity].
  - intros lo hi Hset. apply autoscroll_set_limits. exact Hset.
Qed.

(** *** The back EMF coefficients in GUI scale *)

Lemma to_gui_scale_fields (v : Simulator.Vec5) :
  to_gui_scale v =
  Simulator.mkVec5 (Simulator.c1 v) (Simulator.c3 v / Simulator.c1 v)
    (Simulator.c5 v / Simulator.c1 v) (Simulator.c7 v / Simulator.c1 v)
    (Simulator.c9 v / Simulator.c1 v).
Proof. reflexivity. Qed.

Lemma from_gui_scale_fields (v : Simulator.Vec5) :
  from_gui_scale v =
  Simulator.mkVec5 (Simulator.c1 v) (Simulator.c3 v * Simulator.c1 v)
    (Simulator.c5 v * Simulator.c1 v) (Simulator.c7 v * Simulator.c1 v)
    (Simulator.c9 v * Simulator.c1 v).
Proof. reflexivity. Qed.

(** X9: for a fundamental that is not zero, the GUI scale and the stored
    scale of the back EMF coefficients are inverse to each other: converting
    to the GUI scale and back, or from it and back, gives the coefficients
    again. *)
Theorem gui_scale_round_trip (v : Simulator.Vec5) :
  Simulator.c1 v <> 0 ->
  from_gui_scale (to_gui_scale v) = v /\
  to_gui_scale (from_gui_scale v) = v.
Proof.
  intros Hne. rewrite !to_gui_scale_fields, !from_gui_scale_fields.
  destruct v as [a1 a3 a5 a7 a9].
  cbn [Simulator.c1 Simulator.c3 Simulator.c5 Simulator.c7 Simulator.c9] in *.
  split; f_equal; field; exact Hne.
Qed.

Lemma gui_scale_round_trip_witness :
  1 / 20 <> 0 /\
  from_gui_scale (to_gui_scale (Simulator.mkVec5 (1 / 20) (1 / 100) 0 0 0)) =
  Simulator.mkVec5 (1 / 20) (1 / 100) 0 0 0.
Proof.
  assert (Hne : Simulator.c1 (Simulator.mkVec5 (1 / 20) (1 / 100) 0 0 0) <> 0)
    by (cbn; lra).
  split; [cbn in Hne; exact Hne|].
  exact (proj1 (gui_scale_round_trip _ Hne)).
Defined.

(** *** The rotor circle *)

Section FillLoop.

Variables f g : nat -> Scalar.

Let body (i : nat) (v : VizData) : VizData :=
  mkVizData (<[i := f i]> (circle_xs v)) (<[i := g i]> (circle_ys v)).

Lemma fill_loop_length (n first : nat) (v : VizData) :
  List.length (circle_xs (for_each n first body v)) = List.length (circle_xs v) /\
  List.length (circle_ys (for_each n first body v)) = List.length (circle_ys v).
Proof.
  revert first v. induction n as [|n IH]; intros first v; [split; reflexivity|].
  cbn [for_each]. destruct (IH (S first) (body first v)) as [Hx Hy].
  rewrite Hx, Hy. unfold body. cbn [circle_xs circle_ys].
  rewrite !length_insert. split; reflexivity.
Qed.

Lemma fill_loop_before (n first i : nat) (v : VizData) :
  (i < first)%nat ->
  circle_xs (for_each n first body v) !! i = circle_xs v !! i /\
  circle_ys (for_each n first body v) !! i = circle_ys v !! i.
Proof.
  revert first v. induction n as [|n IH]; intros first v Hi; [split; reflexivity|].
  cbn [for_each]. destruct (IH (S first) (body first v) ltac:(lia)) as [Hx Hy].
  rewrite Hx, Hy. unfold body. cbn [circle_xs circle_ys].
  rewrite !list_lookup_insert_ne by lia. split; reflexivity.
Qed.

Lemma fill_loop_at (n first i : nat) (v : VizData) :
  (first <= i < first + n)%nat ->
  (i < List.length (circle_xs v))%nat ->
  (i < List.length (circle_ys v))%nat ->
  circle_xs (for_each n first body v) !! i = Some (f i) /\
  circle_ys (for_each n first body v) !! i = Some (g i).
Proof.
  revert first v. induction n as [|n IH]; intros first v Hi Hx Hy; [lia|].
  cbn [for_each]. destruct (Nat.eq_dec i first) as [->|Hne].
  - destruct (fill_loop_before n (S first) first (body first v) ltac:(lia)) as [Ex Ey].
    rewrite Ex, Ey. unfold body. cbn [circle_xs circle_ys].
    rewrite !list_lookup_insert_eq by assumption. split; reflexivity.
  - apply IH; [lia| |]; unfold body; cbn [circle_xs circle_ys];
      rewrite length_insert; assumption.
Qed.

End FillLoop.

(** X11: [init_viz_data] fills both arrays over their whole length with
    points of the unit circle; with two points or more the first point is
    (1, 0) and the last point is (1, 0) again, so the polygon is closed. *)
Theorem init_viz_data_circle (viz_data : VizData) (i : nat) :
  let n := List.length (circle_xs viz_data) in
  List.length (circle_ys viz_data) = n ->
  (2 <= n)%nat ->
  (i < n)%nat ->
  let v := init_viz_data viz_data in
  (exists x y, circle_xs v !! i = Some x /\ circle_ys v !! i = Some y /\ x * x + y * y = 1) /\
  (circle_xs v !! 0%nat = Some 1 /\ circle_ys v !! 0%nat = Some 0) /\
  (circle_xs v !! (n - 1)%nat = Some 1 /\ circle_ys v !! (n - 1)%nat = Some 0) /\
  List.length (circle_xs v) = n /\ List.length (circle_ys v) = n.
Proof.
  intros n Hys Hn Hi v. unfold v, init_viz_data. fold n.
  set (angle := fun k : nat => INR k / IZR (Z.of_nat n - 1) * 2 * kPI).
  pose proof (fun k Hk Hx Hy =>
    fill_loop_at (fun k => cos (angle k)) (fun k => sin (angle k)) n 0 k viz_data Hk Hx Hy)
    as Hat.
  assert (Hden : IZR (Z.of_nat n - 1) <> 0).
  { apply not_0_IZR. lia. }
  split; [|split; [|split]].
  - destruct (Hat i) as [Hx Hy]; [lia|fold n; lia|lia|].
    exists (cos (angle i)), (sin (angle i)).
    split; [exact Hx|]. split; [exact Hy|].
    pose proof (sin2_cos2 (angle i)) as Hsc. unfold Rsqr in Hsc. lra.
  - destruct (Hat 0%nat) as [Hx Hy]; [lia|fold n; lia|lia|].
    assert (Ha : angle 0%nat = 0) by (unfold angle; cbn [INR]; field; exact Hden).
    split; [etransitivity; [exact Hx|]|etransitivity; [exact Hy|]];
      rewrite Ha, ?cos_0, ?sin_0; reflexivity.
  - destruct (Hat (n - 1)%nat) as [Hx Hy]; [lia|fold n; lia|lia|].
    assert (Ha : angle (n - 1)%nat = 2 * PI).
    { unfold angle, kPI. rewrite INR_IZR_INZ.
      replace (Z.of_nat (n - 1)) with (Z.of_nat n - 1)%Z by lia.
      field. exact Hden. }
    split; [etransitivity; [exact Hx|]|etransitivity; [exact Hy|]];
      rewrite Ha, ?cos_2PI, ?sin_2PI; reflexivity.
  - destruct (fill_loop_length (fun k => cos (angle k)) (fun k => sin (angle k)) n 0 viz_data)
      as [Hx Hy].
    split; [exact Hx|]. etransitivity; [exact Hy|exact Hys].
Qed.

Lemma init_viz_data_circle_witness :
  circle_xs (init_viz_data (mkVizData [0; 0; 0] [0; 0; 0])) !! 2%nat = Some 1 /\
  circle_ys (init_viz_data (mkVizData [0; 0; 0] [0; 0; 0])) !! 2%nat = Some 0.
Proof.
  exact (proj1 (proj2 (proj2
    (init_viz_data_circle (mkVizData [0; 0; 0] [0; 0; 0]) 0 eq_refl
       ltac:(cbn; lia) ltac:(cbn; lia))))).
Defined.

(** *** More on the random cogging torque map *)

(** The largest magnitude of a map whose magnitudes are at most [x], one of
    them [x]. *)
Lemma max_abs_torque_eq (m : list Scalar) (x : Scalar) :
  (forall e, In e m -> Rabs e <= x) ->
  (exists e, In e m /\ Rabs e = x) ->
  max_abs_torque m = x.
Proof.
  intros Hle (e & Hin & He). apply Rle_antisym.
  - unfold max_abs_torque.
    destruct (max_abs_fold_attained m 0) as [Heq|(t & Hint & Ht)].
    + rewrite Heq, <- He. apply Rabs_pos.
    + rewrite <- Ht. apply Hle. exact Hint.
  - rewrite <- He. apply max_abs_fold_ge. exact Hin.
Qed.

(** X12: the rescaling is idempotent: a map that came out of it is left as
    it is when rescaled again. *)
Theorem rescale_idempotent (m rescaled : list Scalar) :
  rescale m = Some rescaled -> rescale rescaled = Some rescaled.
Proof.
  intros Hres.
  assert (Hpos : 0 < max_abs_torque m).
  { unfold rescale in Hres.
    destruct (Req_dec_T (max_abs_torque m) 0) as [_|Hne]; [discriminate Hres|].
    pose proof (max_abs_torque_nonneg m). lra. }
  destruct (rescale_bounds m Hpos) as (r & Hr & _ & Hle & Hmax).
  rewrite Hr in Hres. injection Hres as ->.
  pose proof (max_abs_torque_eq rescaled (1 / 100) Hle Hmax) as Hm.
  unfold rescale. rewrite Hm.
  destruct (Req_dec_T (1 / 100) 0) as [Hz|_]; [lra|].
  f_equal. rewrite <- (map_id rescaled) at 2.
  apply map_ext. intros t. field.
Qed.

Lemma rescale_idempotent_witness :
  exists rescaled,
    rescale [1; -2] = Some rescaled /\ rescale rescaled = Some rescaled.
Proof.
  assert (Hpos : 0 < max_abs_torque [1; -2]).
  { apply max_abs_torque_pos. exists 1. split; [left; reflexivity|lra]. }
  destruct (rescale_bounds [1; -2] Hpos) as (r & Hr & _).
  exists r. split; [exact Hr|].
  exact (rescale_idempotent [1; -2] r Hr).
Defined.

Lemma max_abs_fold_scale (c : Scalar) (l : list Scalar) (acc : Scalar) :
  0 <= c ->
  fold_left (fun max_abs torque => Rmax max_abs (Rabs torque)) (map (Rmult c) l) (c * acc) =
  c * fold_left (fun max_abs torque => Rmax max_abs (Rabs torque)) l acc.
Proof.
  intros Hc. revert acc. induction l as [|x l IH]; intros acc; [reflexivity|].
  cbn [map fold_left]. rewrite <- IH. f_equal.
  rewrite Rabs_mult, (Rabs_right c) by lra. apply RmaxRmult. exact Hc.
Qed.

Lemma max_abs_torque_scale (c : Scalar) (m : list Scalar) :
  0 <= c -> max_abs_torque (map (Rmult c) m) = c * max_abs_torque m.
Proof.
  intros Hc. unfold max_abs_torque.
  rewrite <- (max_abs_fold_scale c m 0 Hc). f_equal. ring.
Qed.

(** The generated samples are linear in the draws. *)
Lemma cogging_sample_scale (c : Scalar) (draws : nat -> Scalar) (p : Z) (size i : nat) :
  cogging_sample (fourier_coeffs (fun k => c * draws k)) p size i =
  c * cogging_sample (fourier_coeffs draws) p size i.
Proof.
  unfold cogging_sample, fourier_coeffs.
  cbn [for_each map seq nth Nat.mul Nat.add]. ring.
Qed.

(** X13: only the proportions of the twelve draws matter: multiplying every
    draw by the same positive factor changes neither the map that is kept nor
    what the energy check prints. *)
Theorem generate_scale_invariant (c : Scalar) (draws : nat -> Scalar) (p : Z)
    (cogging_torque_map : list Scalar) :
  0 < c ->
  generate_random_cogging_torque_map (fun k => c * draws k) p cogging_torque_map =
  generate_random_cogging_torque_map draws p cogging_torque_map.
Proof.
  intros Hc. unfold generate_random_cogging_torque_map.
  set (size := List.length cogging_torque_map).
  assert (Hgen : generated_cogging_map (fun k => c * draws k) p size =
                 map (Rmult c) (generated_cogging_map draws p size)).
  { unfold generated_cogging_map. rewrite map_map.
    apply map_ext. intros i. apply cogging_sample_scale. }
  rewrite Hgen. set (m := generated_cogging_map draws p size).
  assert (Hres : rescale (map (Rmult c) m) = rescale m).
  { unfold rescale. rewrite max_abs_torque_scale by lra.
    destruct (Req_dec_T (max_abs_torque m) 0) as [Hz|Hnz].
    - rewrite Hz. destruct (Req_dec_T (c * 0) 0) as [_|Hne]; [reflexivity|].
      exfalso. apply Hne. ring.
    - destruct (Req_dec_T (c * max_abs_torque m) 0) as [Hz|_].
      + exfalso. apply Rmult_integral in Hz. destruct Hz; [lra|contradiction].
      + f_equal. rewrite map_map. apply map_ext. intros t. field.
        split; [exact Hnz|lra]. }
  rewrite Hres. reflexivity.
Qed.

Lemma generate_scale_invariant_witness :
  0 < 2 /\
  generate_random_cogging_torque_map (fun k => 2 * INR k) 4 [0; 0; 0; 0] =
  generate_random_cogging_torque_map (fun k => INR k) 4 [0; 0; 0; 0].
Proof.
  split; [lra|].
  apply (generate_scale_invariant 2 (fun k => INR k) 4 [0; 0; 0; 0]). lra.
Defined.

(** *** The mantissa and the exponent of [order_of_magnitude_control] *)

Lemma pow10_unit_interval (f : Scalar) : 0 <= f <= 1 -> 1 <= pow10 f <= 10.
Proof.
  intros [Hlo Hhi]. unfold pow10. split.
  - rewrite <- (Rpower_O 10) by lra. apply Rle_Rpower; lra.
  - rewrite <- (Rpower_1 10) at 2 by lra. apply Rle_Rpower; lra.
Qed.

(** Truncation towards zero leaves a fraction of magnitude below 1, of the
    sign of the number. *)
Lemma Rtrunc_fraction (r : R) :
  -1 < r - IZR (Rtrunc r) < 1 /\ (0 <= r -> 0 <= r - IZR (Rtrunc r)).
Proof.
  unfold Rtrunc. destruct (Rle_dec 0 r) as [Hr|Hr].
  - destruct (base_Int_part r) as [H1 H2]. split; [lra|]. intros _. lra.
  - destruct (base_Int_part (- r)) as [H1 H2]. rewrite opp_IZR.
    split; [lra|]. intros Hpos. contradiction.
Qed.

Section OrderOfMagnitude.

(** Narrowing to float is monotone and keeps -1, 0, 1 and 10, which are
    floats. *)
Variable to_float : Scalar -> Scalar.
Hypothesis to_float_monotone : forall x y, x <= y -> to_float x <= to_float y.
Hypothesis to_float_m1 : to_float (-1) = -1.
Hypothesis to_float_0 : to_float 0 = 0.
Hypothesis to_float_1 : to_float 1 = 1.
Hypothesis to_float_10 : to_float 10 = 10.

(** The loop runs at most once, and leaves a fraction of [0, 1]. *)
Lemma normalize_fraction_once (fuel : nat) (k : Z) (g : Scalar) :
  (1 <= fuel)%nat -> -1 <= g <= 1 ->
  exists k' g',
    normalize_fraction to_float fuel k g = Some (k', g') /\
    0 <= g' <= 1 /\
    (g < 0 /\ k' = (k - 1)%Z \/ 0 <= g /\ k' = k).
Proof.
  intros Hfuel [Hlo Hhi]. destruct fuel as [|fuel]; [lia|].
  cbn [normalize_fraction]. destruct (Rlt_dec g 0) as [Hneg|Hpos].
  - assert (Hg' : 0 <= to_float (g + 1) <= 1).
    { pose proof (to_float_monotone 0 (g + 1) ltac:(lra)) as H0.
      pose proof (to_float_monotone (g + 1) 1 ltac:(lra)) as H1.
      rewrite to_float_0 in H0. rewrite to_float_1 in H1. lra. }
    exists (k - 1)%Z, (to_float (g + 1)).
    destruct fuel as [|fuel]; cbn [normalize_fraction];
      (destruct (Rlt_dec (to_float (g + 1)) 0) as [Habs|_]; [lra|]);
      (split; [reflexivity|]); (split; [exact Hg'|]); left; split;
      try exact Hneg; reflexivity.
  - exists k, g. split; [reflexivity|]. split; [lra|]. right. split; [lra|reflexivity].
Qed.

(** X14: for a positive value, with the narrowing to float taken into
    account, the loop that normalizes the fraction runs at most once, the
    mantissa handed to the sliders lies in [1, 10], the exponent is within one
    of the decimal logarithm of the value (it is its floor when the narrowed
    fraction is negative or the logarithm is not), and the value written back
    is the mantissa times ten to the exponent as the sliders leave them. *)
Theorem order_of_magnitude_decomposition (fuel : nat) (x : Scalar) :
  (1 <= fuel)%nat -> 0 < x ->
  exists base e,
    mantissa_exponent to_float fuel x = Some (base, e) /\
    1 <= base <= 10 /\
    IZR e - 1 < log10 x < IZR e + 1 /\
    (0 <= log10 x -> IZR e <= log10 x) /\
    forall sliders,
      order_of_magnitude_control to_float sliders fuel x =
      Some (let '(base', e', interacted) := sliders (base, e) in
            (base' * pow10 (IZR e'), interacted)).
Proof.
  intros Hfuel Hx.
  destruct (Rtrunc_fraction (log10 x)) as [Hf Hsign].
  set (k := Rtrunc (log10 x)) in *.
  set (f := log10 x - IZR k) in *.
  assert (Hg : -1 <= to_float f <= 1).
  { pose proof (to_float_monotone (-1) f ltac:(lra)) as Hm1.
    pose proof (to_float_monotone f 1 ltac:(lra)) as H1.
    rewrite to_float_m1 in Hm1. rewrite to_float_1 in H1. lra. }
  destruct (normalize_fraction_once fuel k (to_float f) Hfuel Hg)
    as (e & g' & Hnorm & Hg' & Hcase).
  assert (Hme : mantissa_exponent to_float fuel x = Some (to_float (pow10 g'), e)).
  { unfold mantissa_exponent. fold k. fold f. rewrite Hnorm. reflexivity. }
  exists (to_float (pow10 g')), e. split; [exact Hme|]. split.
  { pose proof (pow10_unit_interval g' Hg') as [Hlo Hhi].
    pose proof (to_float_monotone 1 (pow10 g') Hlo) as H1.
    pose proof (to_float_monotone (pow10 g') 10 Hhi) as H10.
    rewrite to_float_1 in H1. rewrite to_float_10 in H10. lra. }
  assert (Hneg : to_float f < 0 -> f < 0).
  { intros Hlt. destruct (Rle_lt_dec 0 f) as [Hge|Hlt']; [|exact Hlt'].
    pose proof (to_float_monotone 0 f Hge) as Hm. rewrite to_float_0 in Hm. lra. }
  split; [|split].
  - destruct Hcase as [[Hlt ->]|[_ ->]].
    + pose proof (Hneg Hlt). rewrite minus_IZR. unfold f in *. lra.
    + unfold f in *. lra.
  - intros Hpos. pose proof (Hsign Hpos) as Hf0.
    destruct Hcase as [[Hlt ->]|[_ ->]].
    + pose proof (Hneg Hlt). lra.
    + unfold f in *. lra.
  - intros sliders. unfold order_of_magnitude_control. rewrite Hme.
    destruct (sliders (to_float (pow10 g'), e)) as [[base' e'] interacted]. reflexivity.
Qed.

End OrderOfMagnitude.

Lemma order_of_magnitude_decomposition_witness :
  exists base e,
    mantissa_exponent (fun x => x) 1 (1 / 1000) = Some (base, e) /\
    1 <= base <= 10 /\
    IZR e - 1 < log10 (1 / 1000) < IZR e + 1.
Proof.
  destruct (order_of_magnitude_decomposition (fun x => x)
              (fun x y Hxy => Hxy) eq_refl eq_refl eq_refl eq_refl 1 (1 / 1000)
              ltac:(lia) ltac:(lra))
    as (base & e & Hme & Hbase & Hexp & _).
  exists base, e. split; [exact Hme|]. split; [exact Hbase|exact Hexp].
Defined.

(** *** Recording samples and exporting them *)

Lemma read_insert_eq (l : list Scalar) (i : nat) (x : Scalar) :
  (i < List.length l)%nat -> read (<[i := x]> l) i = x.
Proof.
  intros Hi. unfold read. apply nth_lookup_Some, list_lookup_insert_eq. exact Hi.
Qed.

Lemma read_insert_ne (l : list Scalar) (i j : nat) (x : Scalar) :
  i <> j -> read (<[i := x]> l) j = read l j.
Proof.
  intros Hne. unfold read. rewrite !nth_lookup, list_lookup_insert_ne by exact Hne.
  reflexivity.
Qed.

(** The lengths of the eight exported channels are all [n]. *)
Definition exported_lengths (n : nat) (b : RollingBuffers) : Prop :=
  Forall (fun field : NamedField => List.length (snd field) = n) (csv_fields b).

Section RecordFacts.

Variable get_pole_voltages : Scalar -> Vec3 Scalar -> GateState -> Vec3 Scalar.
Variable get_phase_voltages : Vec3 Scalar -> Vec3 Scalar -> Vec3 Scalar.
Variable show : Scalar -> string.

Local Abbreviation update := (update_rolling_buffers get_pole_voltages get_phase_voltages).
Local Abbreviation record := (record_samples get_pole_voltages get_phase_voltages).

(** What a call does to the exported channels and to the context. *)
Lemma update_exported (time : Scalar) (board : BoardState) (motor : MotorState)
    (foc : FocState) (b : RollingBuffers) :
  let next := next_idx (rb_ctx b) in
  let b' := update time board motor foc b in
  rb_ctx b' = rolling_buffer_advance_idx (rb_ctx b) /\
  rb_timestamps b' = <[next := time]> (rb_timestamps b) /\
  rb_torque b' = <[next := torque (kinematic motor)]> (rb_torque b) /\
  rb_bEmfs b' =
  mkVec3 (<[next := v0 (bEmfs (electrical motor))]> (v0 (rb_bEmfs b)))
         (<[next := v1 (bEmfs (electrical motor))]> (v1 (rb_bEmfs b)))
         (<[next := v2 (bEmfs (electrical motor))]> (v2 (rb_bEmfs b))) /\
  rb_phase_currents b' =
  mkVec3 (<[next := v0 (phase_currents (electrical motor))]> (v0 (rb_phase_currents b)))
         (<[next := v1 (phase_currents (electrical motor))]> (v1 (rb_phase_currents b)))
         (<[next := v2 (phase_currents (electrical motor))]> (v2 (rb_phase_currents b))).
Proof.
  cbv zeta. buffer_fields. cbv [vwrite vset vget v0 v1 v2].
  repeat split; reflexivity.
Qed.

(** A call of [update_rolling_buffers] writes one slot of the exported
    channels, the one at the write index: there the exported row is the time,
    the torque, the three back EMFs and the three phase currents it was
    given, every other row is as before, and no channel changes its length. *)
Lemma update_exported_rows (time : Scalar) (board : BoardState) (motor : MotorState)
    (foc : FocState) (b : RollingBuffers) (n : nat) :
  exported_lengths n b ->
  (next_idx (rb_ctx b) < n)%nat ->
  let b' := update time board motor foc b in
  csv_row_at b' (next_idx (rb_ctx b)) = sample_row (time, board, motor, foc) /\
  (forall j, j <> next_idx (rb_ctx b) -> csv_row_at b' j = csv_row_at b j) /\
  exported_lengths n b'.
Proof.
  intros Hlen Hnext b'.
  destruct (update_exported time board motor foc b) as (_ & Hts & Htq & Hbe & Hpc).
  fold b' in Hts, Htq, Hbe, Hpc.
  unfold exported_lengths, csv_fields in Hlen.
  repeat (apply Forall_cons_1 in Hlen; destruct Hlen as [? Hlen]).
  cbn [snd vget] in *.
  split; [|split].
  - unfold csv_row_at, sample_row. rewrite Hts, Htq, Hbe, Hpc. cbn [vget v0 v1 v2].
    rewrite !read_insert_eq by lia. reflexivity.
  - intros j Hj. unfold csv_row_at. rewrite Hts, Htq, Hbe, Hpc. cbn [vget v0 v1 v2].
    rewrite !read_insert_ne by (intros Heq; apply Hj; symmetry; exact Heq).
    reflexivity.
  - unfold exported_lengths, csv_fields. rewrite Hts, Htq, Hbe, Hpc. cbn [vget v0 v1 v2].
    repeat (apply Forall_cons; split; [cbn [snd]; rewrite length_insert; assumption|]).
    apply Forall_nil. exact I.
Qed.

(** X15: a call of [update_rolling_buffers] writes one slot of the exported
    channels, the one at the write index: there the exported row is the time,
    the torque, the three back EMFs and the three phase currents it was
    given, every other row is as before, and no channel changes its length. *)
Theorem update_records_sample (time : Scalar) (board : BoardState) (motor : MotorState)
    (foc : FocState) (b : RollingBuffers) (n : nat) :
  exported_lengths n b ->
  (next_idx (rb_ctx b) < n)%nat ->
  csv_row_at (update time board motor foc b) (next_idx (rb_ctx b)) =
  sample_row (time, board, motor, foc) /\
  (forall j, j <> next_idx (rb_ctx b) ->
     csv_row_at (update time board motor foc b) j = csv_row_at b j) /\
  exported_lengths n (update time board motor foc b).
Proof.
  intros Hlen Hnext.
  destruct (update_exported_rows time board motor foc b n Hlen Hnext)
    as (Hrow & Hother & Hlen').
  split; [exact Hrow|]. split; [exact Hother|exact Hlen'].
Qed.

(** The buffers after [samples] have been recorded into empty buffers of
    capacity [n], while they still fit. *)
Definition recorded (n : nat) (samples : list Sample) (b : RollingBuffers) : Prop :=
  capacity (rb_ctx b) = n /\
  writes (rb_ctx b) = List.length samples /\
  next_idx (rb_ctx b) =
    (if (List.length samples <? n)%nat then List.length samples else O) /\
  exported_lengths n b /\
  map (csv_row_at b) (seq 0 (List.length samples)) = map sample_row samples.

Lemma recorded_empty (n : nat) : recorded n [] (empty_buffers n).
Proof.
  unfold recorded, empty_buffers.
  cbn [rb_ctx capacity writes next_idx List.length seq map].
  split; [reflexivity|]. split; [reflexivity|].
  split; [destruct (0 <? n)%nat; reflexivity|]. split; [|reflexivity].
  unfold exported_lengths, csv_fields. cbn [rb_timestamps rb_torque rb_bEmfs rb_phase_currents vget v0 v1 v2].
  repeat (apply Forall_cons; split; [cbn [snd]; apply repeat_length|]).
  apply Forall_nil. exact I.
Qed.

Lemma recorded_step (n : nat) (samples : list Sample) (b : RollingBuffers)
    (time : Scalar) (board : BoardState) (motor : MotorState) (foc : FocState) :
  (List.length samples < n)%nat ->
  recorded n samples b ->
  recorded n (samples ++ [(time, board, motor, foc)]) (update time board motor foc b).
Proof.
  intros Hfit (Hcap & Hw & Hnext & Hlen & Hrows).
  destruct (Nat.ltb_spec (List.length samples) n) as [_|Hge]; [|lia].
  destruct (update_exported_rows time board motor foc b n Hlen ltac:(lia))
    as (Hrow & Hother & Hlen').
  destruct (update_exported time board motor foc b) as (Hctx & _).
  cbv zeta in Hctx.
  unfold recorded. rewrite Hctx, length_app. cbn [List.length].
  unfold rolling_buffer_advance_idx. cbn [capacity writes next_idx].
  rewrite Hcap, Hw, Hnext.
  replace (List.length samples + 1)%nat with (S (List.length samples)) by lia.
  split; [reflexivity|]. split; [reflexivity|]. split; [reflexivity|].
  split; [exact Hlen'|].
  rewrite seq_S, !map_app. cbn [map Nat.add]. f_equal.
  - rewrite <- Hrows. apply map_ext_in. intros j Hj. apply in_seq in Hj.
    apply Hother. lia.
  - f_equal. rewrite <- Hnext. exact Hrow.
Qed.

Lemma record_samples_recorded (n : nat) (samples : list Sample) :
  (List.length samples <= n)%nat ->
  recorded n samples (record samples (empty_buffers n)).
Proof.
  induction samples as [|s samples IH] using rev_ind; intros Hfit.
  - apply recorded_empty.
  - rewrite length_app in Hfit. cbn [List.length] in Hfit.
    unfold record_samples. rewrite fold_left_app. cbn [fold_left].
    destruct s as [[[time board] motor] foc].
    apply recorded_step; [lia|]. apply IH. lia.
Qed.

(** X16: samples recorded into empty buffers that can hold them all are
    exported as they were recorded: [to_csv] writes the header line and then
    one row per sample, in the order of recording, each row the time, the
    torque, the back EMFs and the phase currents of its sample.  With no
    sample the export is the header line alone. *)
Theorem record_then_export (n : nat) (samples : list Sample) :
  (List.length samples <= n)%nat ->
  to_csv show (record samples (empty_buffers n)) =
  (csv_header ++ write_rows show (map sample_row samples))%string /\
  chronological_rows (record samples (empty_buffers n)) = map sample_row samples.
Proof.
  intros Hfit.
  destruct (record_samples_recorded n samples Hfit) as (Hcap & Hw & _ & _ & Hrows).
  assert (Hcsv : csv_rows (record samples (empty_buffers n)) = map sample_row samples).
  { unfold csv_rows, get_rolling_buffer_count. rewrite Hw, Hcap.
    rewrite Nat.min_l by exact Hfit. exact Hrows. }
  split.
  - rewrite to_csv_rows, Hcsv. reflexivity.
  - rewrite <- csv_rows_before_wrap; [exact Hcsv|]. rewrite Hw, Hcap. exact Hfit.
Qed.

End RecordFacts.

Lemma update_records_sample_witness :
  csv_row_at
    (update_rolling_buffers (fun _ _ _ => vzero) (fun _ _ => vzero) 5 quiet_board
       (motor_with_torque 30) quiet_foc (empty_buffers 2)) 0 =
  [5; 30; 0; 0; 0; 0; 0; 0].
Proof.
  destruct (recorded_empty 2) as (_ & _ & _ & Hlen & _).
  exact (proj1 (update_records_sample (fun _ _ _ => vzero) (fun _ _ => vzero) 5 quiet_board
                  (motor_with_torque 30) quiet_foc (empty_buffers 2) 2 Hlen
                  ltac:(cbn; lia))).
Defined.

Lemma record_then_export_witness :
  (2 <= 2)%nat /\
  chronological_rows
    (record_samples (fun _ _ _ => vzero) (fun _ _ => vzero)
       [(1, quiet_board, motor_with_torque 10, quiet_foc);
        (2, quiet_board, motor_with_torque 20, quiet_foc)] (empty_buffers 2)) =
  [[1; 10; 0; 0; 0; 0; 0; 0]; [2; 20; 0; 0; 0; 0; 0; 0]].
Proof.
  split; [lia|].
  exact (proj2 (record_then_export (fun _ _ _ => vzero) (fun _ _ => vzero)
                  (fun _ => EmptyString) 2
                  [(1, quiet_board, motor_with_torque 10, quiet_foc);
                   (2, quiet_board, motor_with_torque 20, quiet_foc)]
                  ltac:(cbn; lia))).
Defined.

End GuiMore.
